(** * Where-are-you-turtle: the blind turtle and the floating yoke

    A shallow embedding of [main.py].  Python's [float] is read as a real
    number ([R]): rounding, overflow and underflow of IEEE doubles are
    outside this reading.  Where a law of [distance_deg] itself is at stake
    the function is also given as the code computes it, in binary64 (module
    [B64]).  Python's unbounded [int] is [Z].

    The process-wide generator of the [random] module is made explicit: a
    generator state is a sequence of unit draws together with a cursor, and
    [random.uniform(a, b)] is [a + (b - a) * random()], as in CPython.
    Console output is kept as a list of structured reports; the textual
    formatting ([format_years], the [.4f] fields) is display only. *)

From Stdlib Require Import Floats.
From Stdlib Require Import Ascii String DecimalString DecimalPos DecimalZ.
From Stdlib Require Import Reals Lra Lia ZArith List Bool.
Import ListNotations.

Local Open Scope R_scope.

(** ** Utility functions *)

(** [max(-90.0, min(90.0, lat))] *)
Definition clamp_lat (lat : R) : R := Rmax (-90) (Rmin 90 lat).

(** One pass of wrapping, not a modulo. *)
Definition wrap_lon (lon : R) : R :=
  if Rgt_dec lon 180 then lon - 360
  else if Rlt_dec lon (-180) then lon + 360
  else lon.

Definition distance_deg (lat1 lon1 lat2 lon2 : R) : R :=
  sqrt ((lat1 - lat2) ^ 2 + (lon1 - lon2) ^ 2).

(** ** The random source *)

Record rng : Type := mkRng { draws : nat -> R; cursor : nat }.

(** Every value [random()] can return lies in [[0, 1)]. *)
Definition unit_draws (g : rng) : Prop := forall n : nat, 0 <= draws g n < 1.

(** Computations that consume random draws. *)
Definition Rand (A : Type) : Type := rng -> A * rng.

Definition ret {A : Type} (a : A) : Rand A := fun g => (a, g).

Definition bind {A B : Type} (m : Rand A) (k : A -> Rand B) : Rand B :=
  fun g => let (a, g') := m g in k a g'.

Notation "x <- m ;; k" := (bind m (fun x => k))
  (at level 61, m at next level, right associativity).

Definition random : Rand R :=
  fun g => (draws g (cursor g), mkRng (draws g) (S (cursor g))).

Definition uniform (a b : R) : Rand R :=
  u <- random ;; ret (a + (b - a) * u).

(** ** Turtle *)

Module Turtle.

Record t : Type := mk { lat : R; lon : R }.

(** [__init__] *)
Definition init : Rand t :=
  la <- uniform (-60) 60 ;;
  lo <- uniform (-180) 180 ;;
  ret (mk la lo).

(** [move]: the object is updated in place; here the updated object is
    returned. *)
Definition move (self : t) : Rand t :=
  angle <- uniform 0 (2 * PI) ;;
  speed_km_per_year <- uniform 1000 3000 ;;
  let delta_deg := speed_km_per_year / 111000 in
  let la := lat self + sin angle * delta_deg in
  let lo := lon self + cos angle * delta_deg in
  ret (mk (clamp_lat la) (wrap_lon lo)).

End Turtle.

(** ** Yoke *)

Module Yoke.

Record t : Type := mk { lat : R; lon : R; season_phase : R }.

(** [__init__] *)
Definition init : Rand t :=
  la <- uniform (-60) 60 ;;
  lo <- uniform (-180) 180 ;;
  ph <- uniform 0 (2 * PI) ;;
  ret (mk la lo ph).

(** [move]: [year / 50] is Python's true division of an [int]. *)
Definition move (self : t) (year : Z) : Rand t :=
  let seasonal_drift := 0.01 * sin (season_phase self + IZR year / 50) in
  current_lat <- uniform (-0.005) 0.005 ;;
  current_lon <- uniform (-0.01) 0.01 ;;
  wind_lat <- uniform (-0.002) 0.002 ;;
  wind_lon <- uniform (-0.002) 0.002 ;;
  let la := lat self + (current_lat + wind_lat + seasonal_drift) in
  let lo := lon self + (current_lon + wind_lon) in
  ret (mk (clamp_lat la) (wrap_lon lo) (season_phase self)).

End Yoke.

(** ** Simulation *)

Definition YEARS_PER_BREATH : Z := 100.
Definition SUCCESS_RADIUS : R := 0.01.

(** What the program prints. *)
Inductive report : Type :=
| Starting
| Breath (step years : Z) (turtle_lat turtle_lon yoke_lat yoke_lon : R)
| Success (years : Z).

(** The variables of [simulate] that live across iterations. *)
Record sim : Type := mkSim {
  turtle : Turtle.t;
  yoke : Yoke.t;
  years_passed : Z;
  step : Z
}.

(** One pass through the body of [while True]: the state it leaves, what it
    printed, and whether it reached [break]. *)
Definition iteration (s : sim) : Rand (sim * list report * bool) :=
  turtle' <- Turtle.move (turtle s) ;;
  yoke' <- Yoke.move (yoke s) (years_passed s) ;;
  let years_passed' := (years_passed s + 1)%Z in
  if (years_passed' mod YEARS_PER_BREATH =? 0)%Z then
    let step' := (step s + 1)%Z in
    let dist := distance_deg (Turtle.lat turtle') (Turtle.lon turtle')
                             (Yoke.lat yoke') (Yoke.lon yoke') in
    let s' := mkSim turtle' yoke' years_passed' step' in
    let line := Breath step' years_passed'
                  (Turtle.lat turtle') (Turtle.lon turtle')
                  (Yoke.lat yoke') (Yoke.lon yoke') in
    if Rle_dec dist SUCCESS_RADIUS
    then ret (s', [line; Success years_passed'], true)
    else ret (s', [line], false)
  else ret (mkSim turtle' yoke' years_passed' (step s), [], false).

(** The loop, cut off after [fuel] iterations: the reports so far and, when
    [break] was reached, the total of years. *)
Fixpoint loop (fuel : nat) (s : sim) : Rand (list report * option Z) :=
  match fuel with
  | O => ret ([], None)
  | S fuel' =>
      r <- iteration s ;;
      let '(s', out, halted) := r in
      if halted : bool then ret (out, Some (years_passed s'))
      else
        rest <- loop fuel' s' ;;
        ret (out ++ fst rest, snd rest)
  end.

Definition simulate (fuel : nat) : Rand (list report * option Z) :=
  turtle0 <- Turtle.init ;;
  yoke0 <- Yoke.init ;;
  rest <- loop fuel (mkSim turtle0 yoke0 0 0) ;;
  ret (Starting :: fst rest, snd rest).

(** The loop without a cut-off, as a relation: [runs s g out n] when the
    loop started in [s] with generator [g] prints [out] and breaks with
    [years_passed = n]. *)
Inductive runs : sim -> rng -> list report -> Z -> Prop :=
| runs_break s g s' out g' :
    iteration s g = (s', out, true, g') ->
    runs s g out (years_passed s')
| runs_again s g s' out g' rest n :
    iteration s g = (s', out, false, g') ->
    runs s' g' rest n ->
    runs s g (out ++ rest) n.

(** A complete run of [simulate] from generator state [g]. *)
Definition simulates (g : rng) (out : list report) (n : Z) : Prop :=
  let (turtle0, g1) := Turtle.init g in
  let (yoke0, g2) := Yoke.init g1 in
  exists rest, out = Starting :: rest /\
               runs (mkSim turtle0 yoke0 0 0) g2 rest n.

(** ** Vocabulary of the specification *)

(** The [k]-th draw still to come, and the generator after [k] draws. *)
Definition peek (g : rng) (k : nat) : R := draws g (k + cursor g).
Definition skip (g : rng) (k : nat) : rng := mkRng (draws g) (k + cursor g).

(** The position invariant as the data model words it: latitude clamped,
    longitude in the half-open band. *)
Definition position_half_open (lat lon : R) : Prop :=
  -90 <= lat <= 90 /\ -180 < lon <= 180.

(** The band of [wrap_lon]'s docstring, closed at both ends. *)
Definition position_closed (lat lon : R) : Prop :=
  -90 <= lat <= 90 /\ -180 <= lon <= 180.

(** What [Turtle.move] draws, and what it adds before clamping and
    wrapping. *)
Definition turtle_angle (g : rng) : R := 0 + (2 * PI - 0) * peek g 0.
Definition turtle_speed (g : rng) : R := 1000 + (3000 - 1000) * peek g 1.
Definition turtle_lat_step (g : rng) : R :=
  turtle_speed g / 111000 * sin (turtle_angle g).
Definition turtle_lon_step (g : rng) : R :=
  turtle_speed g / 111000 * cos (turtle_angle g).

(** What [Yoke.move] draws, and what it adds before clamping and
    wrapping. *)
Definition yoke_current_lat (g : rng) : R :=
  -0.005 + (0.005 - -0.005) * peek g 0.
Definition yoke_current_lon (g : rng) : R :=
  -0.01 + (0.01 - -0.01) * peek g 1.
Definition yoke_wind_lat (g : rng) : R :=
  -0.002 + (0.002 - -0.002) * peek g 2.
Definition yoke_wind_lon (g : rng) : R :=
  -0.002 + (0.002 - -0.002) * peek g 3.
Definition yoke_seasonal (phase : R) (year : Z) : R :=
  0.01 * sin (phase + IZR year / 50).
Definition yoke_lat_step (phase : R) (year : Z) (g : rng) : R :=
  yoke_current_lat g + yoke_wind_lat g + yoke_seasonal phase year.
Definition yoke_lon_step (g : rng) : R :=
  yoke_current_lon g + yoke_wind_lon g.

(** The entities as one iteration of the loop leaves them, and the distance
    a breath would measure between them. *)
Definition moved_turtle (s : sim) (g : rng) : Turtle.t :=
  fst (Turtle.move (turtle s) g).
Definition moved_yoke (s : sim) (g : rng) : Yoke.t :=
  fst (Yoke.move (yoke s) (years_passed s) (snd (Turtle.move (turtle s) g))).
Definition breath_distance (s : sim) : R :=
  distance_deg (Turtle.lat (turtle s)) (Turtle.lon (turtle s))
               (Yoke.lat (yoke s)) (Yoke.lon (yoke s)).

(** Two generators used as concrete inputs: every draw [0], every draw
    [1/2]. *)
Definition zero_gen : rng := mkRng (fun _ => 0) 0.
Definition half_gen : rng := mkRng (fun _ => 1 / 2) 0.

(** A generator all of whose coming draws are [1/2]: the Turtle heads due
    west at 2000 km a year and the Yoke's current and wind cancel. *)
Definition steady (g : rng) : Prop := forall j : nat, peek g j = 1 / 2.

(** The Turtle's yearly step under a steady generator, in degrees. *)
Definition drift : R := 2000 / 111000.

(** The seasonal terms of the years [0 .. k-1], added up. *)
Fixpoint seasonal_sum (phase : R) (k : nat) : R :=
  match k with
  | O => 0
  | S k' => seasonal_sum phase k' + yoke_seasonal phase (Z.of_nat k')
  end.

Arguments seasonal_sum : simpl never.

(** A generator under which the two meet at the first breath: the Yoke is
    born on the meridian a century of steady drift will bring the Turtle
    to, off its latitude by the seasonal terms of that century; every other
    draw is [1/2]. *)
Definition meeting_draws (n : nat) : R :=
  match n with
  | 2%nat => (60 - seasonal_sum PI 100) / 120
  | 3%nat => (180 - 100 * drift) / 360
  | _ => 1 / 2
  end.

Definition meeting_gen : rng := mkRng meeting_draws 0.

(** The state [k] years into that run, before the first breath. *)
Definition trail (k : nat) : sim :=
  mkSim (Turtle.mk 0 (- IZR (Z.of_nat k) * drift))
        (Yoke.mk (seasonal_sum PI k - seasonal_sum PI 100) (- 100 * drift) PI)
        (Z.of_nat k) 0.

(** What that run prints. *)
Definition meeting_out : list report :=
  [Starting; Breath 1 100 0 (- 100 * drift) 0 (- 100 * drift); Success 100].

(** A state between breaths whose next move brings the Turtle onto the
    Yoke, under a steady generator: year 0, the Turtle one step east of a
    Yoke whose seasonal term vanishes. *)
Definition near_miss : sim :=
  mkSim (Turtle.mk 0 drift) (Yoke.mk 0 0 PI) 0 0.

(** ** Vocabulary for the whole simulation *)

(** The four coordinates a breath reports: Turtle latitude and longitude,
    Yoke latitude and longitude. *)
Definition sighting : Type := (R * R * R * R)%type.

(** The breath lines for a list of sightings, numbered from [k]; breath
    [k] is printed in year [100 * k]. *)
Fixpoint breaths_of (k : Z) (ps : list sighting) : list report :=
  match ps with
  | [] => []
  | (tlat, tlon, ylat, ylon) :: ps' =>
      Breath k (100 * k) tlat tlon ylat ylon :: breaths_of (k + 1) ps'
  end.

(** A sighting that meets the test of the loop. *)
Definition close (p : sighting) : Prop :=
  let '(tlat, tlon, ylat, ylon) := p in
  distance_deg tlat tlon ylat ylon <= SUCCESS_RADIUS.

(** A report whose positions, if it has any, lie in the closed band. *)
Definition report_closed (r : report) : Prop :=
  match r with
  | Breath _ _ tlat tlon ylat ylon =>
      position_closed tlat tlon /\ position_closed ylat ylon
  | _ => True
  end.

(** A generator that keeps the two on their meridians: every heading draw
    is [1/4] (due north) and the Yoke's two longitude draws are [1/2]. *)
Definition meridian_bound (g : rng) : Prop :=
  forall k : nat,
    peek g (6 * k) = 1 / 4 /\
    peek g (6 * k + 3) = 1 / 2 /\ peek g (6 * k + 5) = 1 / 2.

(** Such a generator, with the Turtle born on 90 E and the Yoke on 90 W. *)
Definition apart_draws (n : nat) : R :=
  match n with
  | 1%nat => 3 / 4
  | 3%nat => 1 / 4
  | _ => if (n mod 6 =? 5)%nat then 1 / 4 else 1 / 2
  end.

Definition apart_gen : rng := mkRng apart_draws 0.

(** The state in which [simulate] enters its loop; five draws have been
    taken by then. *)
Definition start (g : rng) : sim :=
  mkSim (fst (Turtle.init g)) (fst (Yoke.init (snd (Turtle.init g)))) 0 0.

(** The counter invariant of the loop: [step] counts the breaths so far. *)
Definition counted (s : sim) : Prop :=
  (0 <= years_passed s)%Z /\ step s = (years_passed s / 100)%Z.

(** ** [format_years] *)

(** [str(n)] for an [int]: the decimal numeral, with a minus sign for a
    negative number. *)
Definition decimal (n : Z) : string := NilZero.string_of_int (Z.to_int n).

(** The [,] option of the format specification, on the digits taken from
    the right: a comma goes in after every third digit that has a digit
    after it. [k] digits are still to go into the current group. *)
Fixpoint group (ds : list ascii) (k : nat) : list ascii :=
  match ds with
  | [] => []
  | d :: ds' =>
      match k with
      | O => ","%char :: d :: group ds' 2
      | S k' => d :: group ds' k'
      end
  end.

Definition thousands (ds : list ascii) : list ascii :=
  rev (group (rev ds) 3).

(** [f"{years:,}"] *)
Definition format_years (years : Z) : string :=
  match Z.to_int years with
  | Decimal.Pos d =>
      string_of_list_ascii
        (thousands (list_ascii_of_string (NilZero.string_of_uint d)))
  | Decimal.Neg d =>
      String "-"
        (string_of_list_ascii
           (thousands (list_ascii_of_string (NilZero.string_of_uint d))))
  end.

(** Reading a formatted number back: drop the separators, parse the rest. *)
Fixpoint drop_commas (s : string) : string :=
  match s with
  | EmptyString => EmptyString
  | String c s' =>
      if Ascii.eqb c "," then drop_commas s' else String c (drop_commas s')
  end.

Definition parse_years (s : string) : option Z :=
  option_map Z.of_int (NilZero.int_of_string (drop_commas s)).

(** The characters [drop_commas] keeps. *)
Definition not_comma (c : ascii) : bool := negb (Ascii.eqb c ",").

(** ** [distance_deg] in binary64 *)

Module B64.

(** [x ** 2], taken as the correctly rounded product. *)
Definition square (x : float) : float := (x * x)%float.

Definition distance_deg (lat1 lon1 lat2 lon2 : float) : float :=
  PrimFloat.sqrt (square (lat1 - lat2) + square (lon1 - lon2))%float.

End B64.

(** ** Generators that agree on their next draws *)

(** Two generator states that hand out the same next [k] draws; the
    states themselves, and what comes after, may differ. *)
Definition same_draws (g1 g2 : rng) (k : nat) : Prop :=
  forall j : nat, (j < k)%nat -> peek g1 j = peek g2 j.

(** A second generator state for the run of [meeting_gen]: another cursor,
    the same first 605 draws from there on, and zeros afterwards. *)
Definition meeting_again : rng :=
  mkRng (fun n => if (n <? 10)%nat then 0
                  else if (n <? 615)%nat then meeting_draws (n - 10)
                  else 0) 10.

(** ** Utility functions: ranges *)

Lemma clamp_lat_range (x : R) : -90 <= clamp_lat x <= 90.
Proof.
  unfold clamp_lat, Rmax, Rmin.
  destruct (Rle_dec 90 x); destruct (Rle_dec _ _); lra.
Qed.

Lemma clamp_lat_id (x : R) : -90 <= x <= 90 -> clamp_lat x = x.
Proof.
  intros Hx. unfold clamp_lat, Rmax, Rmin.
  destruct (Rle_dec 90 x); destruct (Rle_dec _ _); lra.
Qed.

Lemma wrap_lon_over (x : R) : 180 < x -> wrap_lon x = x - 360.
Proof.
  intros Hx. unfold wrap_lon.
  destruct (Rgt_dec x 180) as [_ | Hn]; [ reflexivity | ].
  exfalso. apply Hn. exact Hx.
Qed.

Lemma wrap_lon_under (x : R) : x < -180 -> wrap_lon x = x + 360.
Proof.
  intros Hx. unfold wrap_lon.
  destruct (Rgt_dec x 180) as [Hgt | _].
  - unfold Rgt in Hgt. lra.
  - destruct (Rlt_dec x (-180)) as [_ | Hn]; [reflexivity | contradiction].
Qed.

Lemma wrap_lon_id (x : R) : -180 <= x <= 180 -> wrap_lon x = x.
Proof.
  intros [Hlo Hhi]. unfold wrap_lon.
  destruct (Rgt_dec x 180) as [Hgt | _].
  - unfold Rgt in Hgt. lra.
  - destruct (Rlt_dec x (-180)) as [Hlt | _]; [lra | reflexivity].
Qed.

(** A single pass brings back anything that left the band by less than a
    full turn. *)
Lemma wrap_lon_range (x : R) :
  -540 <= x <= 540 -> -180 <= wrap_lon x <= 180.
Proof.
  intros [Hlo Hhi].
  destruct (Rlt_le_dec 180 x) as [Hgt | Hle].
  - rewrite wrap_lon_over by exact Hgt. lra.
  - destruct (Rlt_le_dec x (-180)) as [Hlt | Hge].
    + rewrite wrap_lon_under by exact Hlt. lra.
    + rewrite wrap_lon_id by lra. lra.
Qed.

(** ** The random source: ranges *)

Lemma random_eq (g : rng) :
  random g = (draws g (cursor g), mkRng (draws g) (S (cursor g))).
Proof. reflexivity. Qed.

Lemma uniform_eq (a b : R) (g : rng) :
  uniform a b g =
  (a + (b - a) * draws g (cursor g), mkRng (draws g) (S (cursor g))).
Proof. reflexivity. Qed.

Lemma unit_draws_next (g : rng) :
  unit_draws g -> unit_draws (mkRng (draws g) (S (cursor g))).
Proof. intros H n. exact (H n). Qed.

Lemma uniform_range (a b : R) (g : rng) :
  a <= b -> unit_draws g -> a <= fst (uniform a b g) <= b.
Proof.
  intros Hab Hg. rewrite uniform_eq. simpl.
  pose proof (Hg (cursor g)) as [H0 H1].
  split; nra.
Qed.

Lemma uniform_unit_draws (a b : R) (g : rng) :
  unit_draws g -> unit_draws (snd (uniform a b g)).
Proof. intros Hg. rewrite uniform_eq. exact Hg. Qed.

Lemma unit_draws_skip (g : rng) (k : nat) :
  unit_draws g -> unit_draws (skip g k).
Proof. intros H n. exact (H n). Qed.

Lemma peek_range (g : rng) (k : nat) : unit_draws g -> 0 <= peek g k < 1.
Proof. intros H. exact (H _). Qed.

Lemma zero_gen_unit : unit_draws zero_gen.
Proof. intros n. simpl. lra. Qed.

Lemma half_gen_unit : unit_draws half_gen.
Proof. intros n. simpl. lra. Qed.

(** ** The two motion models, unfolded *)

Lemma turtle_init_eq (g : rng) :
  Turtle.init g =
  (Turtle.mk (-60 + (60 - -60) * peek g 0) (-180 + (180 - -180) * peek g 1),
   skip g 2).
Proof. reflexivity. Qed.

Lemma yoke_init_eq (g : rng) :
  Yoke.init g =
  (Yoke.mk (-60 + (60 - -60) * peek g 0) (-180 + (180 - -180) * peek g 1)
           (0 + (2 * PI - 0) * peek g 2),
   skip g 3).
Proof. reflexivity. Qed.

Lemma turtle_move_eq (self : Turtle.t) (g : rng) :
  Turtle.move self g =
  (Turtle.mk (clamp_lat (Turtle.lat self + turtle_lat_step g))
             (wrap_lon (Turtle.lon self + turtle_lon_step g)),
   skip g 2).
Proof.
  unfold turtle_lat_step, turtle_lon_step.
  rewrite (Rmult_comm (turtle_speed g / 111000) (sin _)).
  rewrite (Rmult_comm (turtle_speed g / 111000) (cos _)).
  reflexivity.
Qed.

Lemma yoke_move_eq (self : Yoke.t) (year : Z) (g : rng) :
  Yoke.move self year g =
  (Yoke.mk (clamp_lat (Yoke.lat self
                       + yoke_lat_step (Yoke.season_phase self) year g))
           (wrap_lon (Yoke.lon self + yoke_lon_step g))
           (Yoke.season_phase self),
   skip g 4).
Proof. reflexivity. Qed.

(** The values named above are the draws [uniform] hands to the two
    [move] methods, in the order the methods ask for them. *)
Lemma turtle_draws_eq (g : rng) :
  uniform 0 (2 * PI) g = (turtle_angle g, skip g 1) /\
  uniform 1000 3000 (skip g 1) = (turtle_speed g, skip g 2).
Proof. split; reflexivity. Qed.

Lemma yoke_draws_eq (g : rng) :
  (uniform (-0.005) 0.005 g = (yoke_current_lat g, skip g 1) /\
   uniform (-0.01) 0.01 (skip g 1) = (yoke_current_lon g, skip g 2)) /\
  (uniform (-0.002) 0.002 (skip g 2) = (yoke_wind_lat g, skip g 3) /\
   uniform (-0.002) 0.002 (skip g 3) = (yoke_wind_lon g, skip g 4)).
Proof. repeat split; reflexivity. Qed.

Lemma PI_bounds : 3 < PI <= 4.
Proof.
  split; [ | exact PI_4 ].
  pose proof PI2_3_2. lra.
Qed.

Lemma scaled_unit_bound (d s B : R) :
  0 <= d <= B -> -1 <= s <= 1 -> Rabs (d * s) <= B.
Proof.
  intros Hd Hs. apply Rabs_le. split; nra.
Qed.

Lemma Rabs_le_between (x b : R) : Rabs x <= b -> - b <= x <= b.
Proof.
  unfold Rabs. destruct (Rcase_abs x); lra.
Qed.

Lemma yoke_seasonal_bound (phase : R) (year : Z) :
  Rabs (yoke_seasonal phase year) <= 0.01.
Proof.
  unfold yoke_seasonal. apply scaled_unit_bound; [lra | apply SIN_bound].
Qed.

(** Brings the ranges of the next four draws into the context. *)
Ltac next_draws g Hg :=
  pose proof (peek_range g 0 Hg); pose proof (peek_range g 1 Hg);
  pose proof (peek_range g 2 Hg); pose proof (peek_range g 3 Hg).

Section Draws.

Variable g : rng.
Hypothesis Hg : unit_draws g.

Lemma init_ranges :
  (-60 <= Turtle.lat (fst (Turtle.init g)) <= 60 /\
   -180 <= Turtle.lon (fst (Turtle.init g)) <= 180) /\
  (-60 <= Yoke.lat (fst (Yoke.init g)) <= 60 /\
   -180 <= Yoke.lon (fst (Yoke.init g)) <= 180) /\
  0 <= Yoke.season_phase (fst (Yoke.init g)) < 2 * PI.
Proof.
  rewrite yoke_init_eq, turtle_init_eq. cbn [fst Turtle.lat Turtle.lon
    Yoke.lat Yoke.lon Yoke.season_phase].
  next_draws g Hg. pose proof PI_bounds.
  repeat split; nra.
Qed.

Lemma turtle_draws_range :
  0 <= turtle_angle g < 2 * PI /\ 1000 <= turtle_speed g <= 3000.
Proof.
  unfold turtle_angle, turtle_speed.
  next_draws g Hg. pose proof PI_bounds. split; split; nra.
Qed.

Lemma turtle_step_bound :
  Rabs (turtle_lat_step g) <= 3000 / 111000 /\
  Rabs (turtle_lon_step g) <= 3000 / 111000.
Proof.
  destruct turtle_draws_range as [_ Hs].
  unfold turtle_lat_step, turtle_lon_step.
  split; apply scaled_unit_bound;
    first [ lra | apply SIN_bound | apply COS_bound ].
Qed.

Lemma yoke_draws_range :
  (-0.005 <= yoke_current_lat g <= 0.005 /\
   -0.01 <= yoke_current_lon g <= 0.01) /\
  (-0.002 <= yoke_wind_lat g <= 0.002 /\
   -0.002 <= yoke_wind_lon g <= 0.002).
Proof.
  unfold yoke_current_lat, yoke_current_lon, yoke_wind_lat, yoke_wind_lon.
  next_draws g Hg. repeat split; lra.
Qed.

Lemma yoke_step_bound (phase : R) (year : Z) :
  Rabs (yoke_lat_step phase year g) <= 0.017 /\
  Rabs (yoke_lon_step g) <= 0.012.
Proof.
  destruct yoke_draws_range as [[Hcl Hco] [Hwl Hwo]].
  pose proof (yoke_seasonal_bound phase year) as Hs.
  apply Rabs_le_between in Hs.
  unfold yoke_lat_step, yoke_lon_step.
  split; apply Rabs_le; lra.
Qed.

End Draws.

(** ** Claims on the utility functions *)

(** C3: [wrap_lon] follows the case analysis of the specification: on
    (180, 360] it subtracts 360 and lands in (-180, 180]; on [-360, -180) it
    adds 360; on (-180, 180] it returns its argument. *)
Theorem wrap_lon_cases (x : R) :
  (180 < x <= 360 ->
   wrap_lon x = x - 360 /\ -180 < wrap_lon x <= 180) /\
  (-360 <= x < -180 -> wrap_lon x = x + 360) /\
  (-180 < x <= 180 -> wrap_lon x = x).
Proof.
  split; [ | split ].
  - intros [Hlo Hhi]. rewrite wrap_lon_over by exact Hlo.
    split; [reflexivity | lra].
  - intros [Hlo Hhi]. apply wrap_lon_under. exact Hhi.
  - intros [Hlo Hhi]. apply wrap_lon_id. lra.
Qed.

Lemma wrap_lon_cases_witness :
  (wrap_lon 270 = 270 - 360 /\ -180 < wrap_lon 270 <= 180) /\
  wrap_lon (-270) = -270 + 360 /\
  wrap_lon 45 = 45.
Proof.
  split; [ | split ].
  - apply (proj1 (wrap_lon_cases 270)). lra.
  - apply (proj1 (proj2 (wrap_lon_cases (-270)))). lra.
  - apply (proj2 (proj2 (wrap_lon_cases 45))). lra.
Defined.

Lemma distance_deg_dist_euc (lat1 lon1 lat2 lon2 : R) :
  distance_deg lat1 lon1 lat2 lon2 = dist_euc lat1 lon1 lat2 lon2.
Proof.
  unfold distance_deg, dist_euc. rewrite <- !Rsqr_pow2. reflexivity.
Qed.

Lemma distance_deg_zero (lat1 lon1 lat2 lon2 : R) :
  distance_deg lat1 lon1 lat2 lon2 = 0 <-> lat1 = lat2 /\ lon1 = lon2.
Proof.
  unfold distance_deg. split.
  - intros H. rewrite <- !Rsqr_pow2 in H.
    apply sqrt_eq_0 in H.
    + apply Rplus_sqr_eq_0 in H. destruct H as [Hla Hlo]. split; lra.
    + apply Rplus_le_le_0_compat; apply Rle_0_sqr.
  - intros [-> ->].
    replace ((lat2 - lat2) ^ 2 + (lon2 - lon2) ^ 2) with 0 by ring.
    exact sqrt_0.
Qed.

(** Over the reals the formula of [distance_deg] is a metric: symmetric,
    zero exactly on identical positions, with the triangle inequality. *)
Lemma distance_deg_metric :
  (forall lat1 lon1 lat2 lon2 : R,
      distance_deg lat1 lon1 lat2 lon2 = distance_deg lat2 lon2 lat1 lon1) /\
  (forall lat1 lon1 lat2 lon2 : R,
      distance_deg lat1 lon1 lat2 lon2 = 0 <-> lat1 = lat2 /\ lon1 = lon2) /\
  (forall lat1 lon1 lat2 lon2 lat3 lon3 : R,
      distance_deg lat1 lon1 lat3 lon3 <=
      distance_deg lat1 lon1 lat2 lon2 + distance_deg lat2 lon2 lat3 lon3).
Proof.
  split; [ | split ].
  - intros. unfold distance_deg. f_equal. ring.
  - exact distance_deg_zero.
  - intros. rewrite !distance_deg_dist_euc. apply triangle.
Qed.

(** ** Claims on the motion models *)

(** C5: [Turtle.move] draws a heading in [0, 2 pi) and a speed in
    [1000, 3000], adds [(speed / 111000) * sin heading] to the latitude and
    [(speed / 111000) * cos heading] to the longitude before clamping and
    wrapping, and either addend is at most [3000 / 111000] in magnitude. *)
Theorem turtle_move_displacement (self : Turtle.t) (g : rng) :
  unit_draws g ->
  (0 <= turtle_angle g < 2 * PI /\ 1000 <= turtle_speed g <= 3000) /\
  fst (Turtle.move self g) =
    Turtle.mk
      (clamp_lat (Turtle.lat self
                  + turtle_speed g / 111000 * sin (turtle_angle g)))
      (wrap_lon (Turtle.lon self
                 + turtle_speed g / 111000 * cos (turtle_angle g))) /\
  Rabs (turtle_speed g / 111000 * sin (turtle_angle g)) <= 3000 / 111000 /\
  Rabs (turtle_speed g / 111000 * cos (turtle_angle g)) <= 3000 / 111000.
Proof.
  intros Hg. split; [ exact (turtle_draws_range g Hg) | split ].
  - rewrite turtle_move_eq. reflexivity.
  - exact (turtle_step_bound g Hg).
Qed.

Lemma turtle_move_displacement_witness :
  unit_draws half_gen /\
  Rabs (turtle_speed half_gen / 111000 * sin (turtle_angle half_gen))
    <= 3000 / 111000.
Proof.
  split.
  - exact half_gen_unit.
  - exact (proj1 (proj2 (proj2
             (turtle_move_displacement (Turtle.mk 0 0) half_gen
                                       half_gen_unit)))).
Defined.

(** C6: with its draws in their ranges, [Yoke.move] adds at most 0.017 in
    magnitude to the latitude and at most 0.012 to the longitude before
    clamping and wrapping. *)
Theorem yoke_move_displacement (self : Yoke.t) (year : Z) (g : rng) :
  unit_draws g ->
  ((-0.005 <= yoke_current_lat g <= 0.005 /\
    -0.01 <= yoke_current_lon g <= 0.01) /\
   (-0.002 <= yoke_wind_lat g <= 0.002 /\
    -0.002 <= yoke_wind_lon g <= 0.002)) /\
  Rabs (yoke_seasonal (Yoke.season_phase self) year) <= 0.01 /\
  fst (Yoke.move self year g) =
    Yoke.mk
      (clamp_lat (Yoke.lat self
                  + (yoke_current_lat g + yoke_wind_lat g
                     + yoke_seasonal (Yoke.season_phase self) year)))
      (wrap_lon (Yoke.lon self + (yoke_current_lon g + yoke_wind_lon g)))
      (Yoke.season_phase self) /\
  Rabs (yoke_current_lat g + yoke_wind_lat g
        + yoke_seasonal (Yoke.season_phase self) year) <= 0.017 /\
  Rabs (yoke_current_lon g + yoke_wind_lon g) <= 0.012.
Proof.
  intros Hg.
  split; [ exact (yoke_draws_range g Hg) | ].
  split; [ apply yoke_seasonal_bound | ].
  split; [ rewrite yoke_move_eq; reflexivity | ].
  exact (yoke_step_bound g Hg (Yoke.season_phase self) year).
Qed.

Lemma yoke_move_displacement_witness :
  unit_draws half_gen /\
  Rabs (yoke_current_lon half_gen + yoke_wind_lon half_gen) <= 0.012.
Proof.
  split.
  - exact half_gen_unit.
  - exact (proj2 (proj2 (proj2 (proj2
             (yoke_move_displacement (Yoke.mk 0 0 0) 0 half_gen
                                     half_gen_unit))))).
Defined.

(** C10: a new Yoke is placed by the same two draws as a new Turtle:
    latitude in [-60, 60] and longitude in [-180, 180], and from one
    generator state the two constructors compute the same position. *)
Theorem yoke_init_ranges (g : rng) :
  unit_draws g ->
  (-60 <= Yoke.lat (fst (Yoke.init g)) <= 60 /\
   -180 <= Yoke.lon (fst (Yoke.init g)) <= 180) /\
  (-60 <= Turtle.lat (fst (Turtle.init g)) <= 60 /\
   -180 <= Turtle.lon (fst (Turtle.init g)) <= 180) /\
  (Yoke.lat (fst (Yoke.init g)) = Turtle.lat (fst (Turtle.init g)) /\
   Yoke.lon (fst (Yoke.init g)) = Turtle.lon (fst (Turtle.init g))).
Proof.
  intros Hg. destruct (init_ranges g Hg) as [Ht [Hy _]].
  split; [ exact Hy | split; [ exact Ht | ] ].
  rewrite yoke_init_eq, turtle_init_eq. split; reflexivity.
Qed.

Lemma yoke_init_ranges_witness :
  unit_draws half_gen /\
  -60 <= Yoke.lat (fst (Yoke.init half_gen)) <= 60 /\
  -180 <= Yoke.lon (fst (Yoke.init half_gen)) <= 180.
Proof.
  split.
  - exact half_gen_unit.
  - exact (proj1 (yoke_init_ranges half_gen half_gen_unit)).
Defined.

(** C2, as the data model words it, fails: a first draw of [0] puts a new
    Turtle at longitude -180 exactly, and a Yoke at longitude -180 whose
    current and wind draws cancel stays there, since [wrap_lon] leaves -180
    alone. *)
Lemma position_half_open_counterexample :
  (unit_draws zero_gen /\
   ~ position_half_open (Turtle.lat (fst (Turtle.init zero_gen)))
                        (Turtle.lon (fst (Turtle.init zero_gen)))) /\
  (unit_draws half_gen /\
   ~ position_half_open
       (Yoke.lat (fst (Yoke.move (Yoke.mk 0 (-180) 0) 0 half_gen)))
       (Yoke.lon (fst (Yoke.move (Yoke.mk 0 (-180) 0) 0 half_gen)))).
Proof.
  split; split.
  - exact zero_gen_unit.
  - rewrite turtle_init_eq. unfold position_half_open, peek. simpl. lra.
  - exact half_gen_unit.
  - rewrite yoke_move_eq. unfold position_half_open. simpl.
    replace (-180 + yoke_lon_step half_gen) with (-180).
    + rewrite wrap_lon_id by lra. lra.
    + unfold yoke_lon_step, yoke_current_lon, yoke_wind_lon, peek. simpl. lra.
Qed.

(** C2, amended: construction puts either entity inside latitude [-90, 90]
    and longitude [-180, 180], closed at both ends, and a move from a
    position inside these bounds ends inside them. *)
Theorem position_closed_preserved (g : rng) :
  unit_draws g ->
  position_closed (Turtle.lat (fst (Turtle.init g)))
                  (Turtle.lon (fst (Turtle.init g))) /\
  position_closed (Yoke.lat (fst (Yoke.init g)))
                  (Yoke.lon (fst (Yoke.init g))) /\
  (forall self : Turtle.t,
      position_closed (Turtle.lat self) (Turtle.lon self) ->
      position_closed (Turtle.lat (fst (Turtle.move self g)))
                      (Turtle.lon (fst (Turtle.move self g)))) /\
  (forall (self : Yoke.t) (year : Z),
      position_closed (Yoke.lat self) (Yoke.lon self) ->
      position_closed (Yoke.lat (fst (Yoke.move self year g)))
                      (Yoke.lon (fst (Yoke.move self year g)))).
Proof.
  intros Hg. unfold position_closed.
  destruct (init_ranges g Hg) as [[Htla Htlo] [[Hyla Hylo] _]].
  split; [ lra | split; [ lra | split ] ].
  - intros self [_ Hlon]. rewrite turtle_move_eq. simpl.
    split; [ apply clamp_lat_range | apply wrap_lon_range ].
    destruct (turtle_step_bound g Hg) as [_ Hb].
    apply Rabs_le_between in Hb. lra.
  - intros self year [_ Hlon]. rewrite yoke_move_eq. simpl.
    split; [ apply clamp_lat_range | apply wrap_lon_range ].
    destruct (yoke_step_bound g Hg (Yoke.season_phase self) year) as [_ Hb].
    apply Rabs_le_between in Hb. lra.
Qed.

Lemma position_closed_preserved_witness :
  unit_draws half_gen /\
  position_closed (Turtle.lat (Turtle.mk 0 (-180)))
                  (Turtle.lon (Turtle.mk 0 (-180))) /\
  position_closed
    (Turtle.lat (fst (Turtle.move (Turtle.mk 0 (-180)) half_gen)))
    (Turtle.lon (fst (Turtle.move (Turtle.mk 0 (-180)) half_gen))).
Proof.
  assert (H0 : position_closed (Turtle.lat (Turtle.mk 0 (-180)))
                               (Turtle.lon (Turtle.mk 0 (-180)))).
  { unfold position_closed. simpl. lra. }
  split; [ exact half_gen_unit | split; [ exact H0 | ] ].
  exact (proj1 (proj2 (proj2
           (position_closed_preserved half_gen half_gen_unit)))
           (Turtle.mk 0 (-180)) H0).
Defined.

(** C9: [Yoke.move] returns a Yoke with the [season_phase] it was given;
    only latitude and longitude are recomputed, and so the phase survives
    every iteration of the loop. *)
Theorem season_phase_immutable :
  (forall (self : Yoke.t) (year : Z) (g : rng),
      Yoke.season_phase (fst (Yoke.move self year g))
      = Yoke.season_phase self) /\
  (forall (s : sim) (g : rng),
      Yoke.season_phase (yoke (fst (fst (fst (iteration s g)))))
      = Yoke.season_phase (yoke s)).
Proof.
  split.
  - intros. rewrite yoke_move_eq. reflexivity.
  - intros s g. unfold iteration, bind, ret.
    rewrite turtle_move_eq, yoke_move_eq.
    destruct (_ =? 0)%Z; [ destruct (Rle_dec _ _) | ]; reflexivity.
Qed.

(** ** The loop body *)

(** The three ways out of one iteration. *)
Lemma iteration_eq (s : sim) (g : rng) :
  iteration s g =
  let turtle' := moved_turtle s g in
  let yoke' := moved_yoke s g in
  let years' := (years_passed s + 1)%Z in
  if (years' mod 100 =? 0)%Z then
    let s' := mkSim turtle' yoke' years' (step s + 1) in
    let line := Breath (step s + 1) years'
                  (Turtle.lat turtle') (Turtle.lon turtle')
                  (Yoke.lat yoke') (Yoke.lon yoke') in
    if Rle_dec (breath_distance s') SUCCESS_RADIUS
    then (s', [line; Success years'], true, skip g 6)
    else (s', [line], false, skip g 6)
  else (mkSim turtle' yoke' years' (step s), [], false, skip g 6).
Proof.
  unfold iteration, bind, ret, moved_turtle, moved_yoke, breath_distance,
    YEARS_PER_BREATH.
  rewrite turtle_move_eq. cbn [fst snd]. rewrite yoke_move_eq. cbn [fst snd].
  destruct (_ =? 0)%Z; [ destruct (Rle_dec _ _) | ]; reflexivity.
Qed.

Lemma iteration_state (s : sim) (g : rng) :
  let s' := fst (fst (fst (iteration s g))) in
  turtle s' = moved_turtle s g /\
  yoke s' = moved_yoke s g /\
  years_passed s' = (years_passed s + 1)%Z.
Proof.
  rewrite iteration_eq. cbv zeta.
  destruct (_ =? 0)%Z; [ destruct (Rle_dec _ _) | ]; repeat split.
Qed.

Lemma loop_S (fuel : nat) (s : sim) (g : rng) :
  loop (S fuel) s g =
  let '(s', out, halted, g') := iteration s g in
  if halted : bool then (out, Some (years_passed s'), g')
  else let '(rest, g'') := loop fuel s' g' in
       (out ++ fst rest, snd rest, g'').
Proof.
  cbn [loop]. unfold bind at 1.
  destruct (iteration s g) as [[[s' out] halted] g'].
  destruct halted; [ reflexivity | ].
  unfold bind, ret. destruct (loop fuel s' g'). reflexivity.
Qed.

(** C4: in every iteration [Yoke.move] receives [years_passed] as it stood
    before the increment; the seasonal term is
    [0.01 * sin (season_phase + year / 50)] and enters the latitude only:
    the new longitude is the same for every year and every phase. *)
Theorem yoke_move_year (s : sim) (g : rng) :
  let g1 := snd (Turtle.move (turtle s) g) in
  let s' := fst (fst (fst (iteration s g))) in
  (yoke s' = fst (Yoke.move (yoke s) (years_passed s) g1) /\
   years_passed s' = (years_passed s + 1)%Z) /\
  (Yoke.lat (yoke s') =
     clamp_lat (Yoke.lat (yoke s)
                + (yoke_current_lat g1 + yoke_wind_lat g1
                   + 0.01 * sin (Yoke.season_phase (yoke s)
                                 + IZR (years_passed s) / 50))) /\
   Yoke.lon (yoke s') =
     wrap_lon (Yoke.lon (yoke s)
               + (yoke_current_lon g1 + yoke_wind_lon g1))) /\
  (forall (year' : Z) (phase' : R),
      Yoke.lon (fst (Yoke.move
                       (Yoke.mk (Yoke.lat (yoke s)) (Yoke.lon (yoke s)) phase')
                       year' g1))
      = Yoke.lon (yoke s')).
Proof.
  cbv zeta. destruct (iteration_state s g) as [_ [Hy Hn]].
  rewrite Hy, Hn. unfold moved_yoke.
  split; [ split; reflexivity | ].
  rewrite yoke_move_eq. cbn [fst Yoke.lat Yoke.lon].
  split; [ split; reflexivity | ].
  intros year' phase'. rewrite yoke_move_eq. reflexivity.
Qed.

(** C1: the loop leaves only through [break]: an iteration ends the loop
    exactly when the incremented [years_passed] is a multiple of 100 and the
    distance between the moved entities is at most 0.01; in a year that is
    not a multiple of 100 it prints nothing and goes on, wherever the
    entities are. *)
Theorem loop_halts_iff (s : sim) (g : rng) :
  let '(s', out, halted, g') := iteration s g in
  years_passed s' = (years_passed s + 1)%Z /\
  (halted = true <->
   (years_passed s' mod 100 = 0)%Z /\ breath_distance s' <= 0.01) /\
  ((years_passed s' mod 100 <> 0)%Z -> halted = false /\ out = []) /\
  (forall fuel : nat,
      loop (S fuel) s g =
      if halted then (out, Some (years_passed s'), g')
      else (out ++ fst (fst (loop fuel s' g')),
            snd (fst (loop fuel s' g')), snd (loop fuel s' g'))).
Proof.
  pose proof (fun fuel => loop_S fuel s g) as Hloop.
  rewrite iteration_eq in *. cbv zeta in *. unfold SUCCESS_RADIUS in *.
  destruct (Z.eqb_spec ((years_passed s + 1) mod 100) 0) as [Hm | Hm].
  - destruct (Rle_dec _ _) as [Hd | Hd]; cbn [years_passed].
    + split; [ reflexivity | split; [ tauto | split ] ].
      * intros Hne. contradiction.
      * exact Hloop.
    + split; [ reflexivity | split; [ | split ] ].
      * split; [ discriminate | intros [_ Hle]; contradiction ].
      * intros Hne. contradiction.
      * intros fuel. rewrite Hloop. destruct (loop fuel _ _). reflexivity.
  - cbn [years_passed].
    split; [ reflexivity | split; [ | split ] ].
    + split; [ discriminate | intros [Heq _]; contradiction ].
    + intros _. split; reflexivity.
    + intros fuel. rewrite Hloop. destruct (loop fuel _ _). reflexivity.
Qed.

(** ** Runs of the loop *)

(** The loop is a function of its state and generator. *)
Lemma runs_deterministic (s : sim) (g : rng)
      (out1 out2 : list report) (n1 n2 : Z) :
  runs s g out1 n1 -> runs s g out2 n2 -> out1 = out2 /\ n1 = n2.
Proof.
  intros H1. revert out2 n2.
  induction H1 as [s g s1 o1 g1 E1 | s g s1 o1 g1 rest1 n1 E1 _ IH];
    intros out2 n2 H2;
    inversion H2 as [? ? s2 o2 g2 E2 | ? ? s2 o2 g2 rest2 ? E2 R2];
    subst; rewrite E1 in E2; inversion E2; subst.
  - split; reflexivity.
  - destruct (IH _ _ R2) as [-> ->]. split; reflexivity.
Qed.

Lemma runs_loop (s : sim) (g : rng) (out : list report) (n : Z) :
  runs s g out n -> exists fuel g', loop fuel s g = (out, Some n, g').
Proof.
  induction 1 as [s g s1 o1 g1 E1 | s g s1 o1 g1 rest n E1 _ [fuel [g' IH]]].
  - exists 1%nat, g1. rewrite loop_S, E1. reflexivity.
  - exists (S fuel), g'. rewrite loop_S, E1, IH. reflexivity.
Qed.

Lemma loop_runs (fuel : nat) (s : sim) (g g' : rng)
      (out : list report) (n : Z) :
  loop fuel s g = (out, Some n, g') -> runs s g out n.
Proof.
  revert s g out. induction fuel as [ | fuel IH]; intros s g out H.
  - discriminate H.
  - rewrite loop_S in H.
    destruct (iteration s g) as [[[s1 o1] [ | ]] g1] eqn:E1.
    + inversion H; subst. eapply runs_break. exact E1.
    + destruct (loop fuel s1 g1) as [[rest r] g2] eqn:E2.
      cbn [fst snd] in H. inversion H; subst.
      eapply runs_again; [ exact E1 | ]. eapply IH. exact E2.
Qed.

Lemma simulate_eq (fuel : nat) (g : rng) :
  simulate fuel g =
  let (turtle0, g1) := Turtle.init g in
  let (yoke0, g2) := Yoke.init g1 in
  let '(rest, g3) := loop fuel (mkSim turtle0 yoke0 0 0) g2 in
  (Starting :: fst rest, snd rest, g3).
Proof.
  unfold simulate, bind, ret.
  destruct (Turtle.init g) as [turtle0 g1].
  destruct (Yoke.init g1) as [yoke0 g2]. reflexivity.
Qed.

(** The relation and the fuelled loop describe the same runs. *)
Lemma simulates_fuel (g : rng) (out : list report) (n : Z) :
  simulates g out n <->
  exists fuel g', simulate fuel g = (out, Some n, g').
Proof.
  unfold simulates. split.
  - destruct (Turtle.init g) as [turtle0 g1] eqn:Et.
    destruct (Yoke.init g1) as [yoke0 g2] eqn:Ey.
    intros [rest [-> Hr]].
    destruct (runs_loop _ _ _ _ Hr) as [fuel [g' Hl]].
    exists fuel, g'. rewrite simulate_eq, Et, Ey, Hl. reflexivity.
  - intros [fuel [g' H]]. rewrite simulate_eq in H.
    destruct (Turtle.init g) as [turtle0 g1].
    destruct (Yoke.init g1) as [yoke0 g2].
    destruct (loop fuel _ g2) as [[rest r] g3] eqn:El.
    cbn [fst snd] in H. inversion H; subst.
    exists rest. split; [ reflexivity | ].
    eapply loop_runs. exact El.
Qed.

(** More fuel does not change a run that has ended. *)
Lemma loop_more_fuel (fuel extra : nat) (s : sim) (g g' : rng)
      (out : list report) (n : Z) :
  loop fuel s g = (out, Some n, g') ->
  loop (fuel + extra) s g = (out, Some n, g').
Proof.
  revert s g out. induction fuel as [ | fuel IH]; intros s g out H.
  - discriminate H.
  - change (S fuel + extra)%nat with (S (fuel + extra)).
    rewrite loop_S in *.
    destruct (iteration s g) as [[[s1 o1] [ | ]] g1]; [ exact H | ].
    destruct (loop fuel s1 g1) as [[rest r] g2] eqn:E2.
    cbn [fst snd] in H. inversion H; subst.
    rewrite (IH _ _ _ E2). reflexivity.
Qed.

(** What has been printed after [fuel] iterations is still there after
    more of them. *)
Lemma loop_prefix (fuel extra : nat) (s : sim) (g : rng) :
  exists rest : list report,
    fst (fst (loop (fuel + extra) s g)) = fst (fst (loop fuel s g)) ++ rest.
Proof.
  revert s g. induction fuel as [ | fuel IH]; intros s g.
  - exists (fst (fst (loop extra s g))). reflexivity.
  - change (S fuel + extra)%nat with (S (fuel + extra)).
    rewrite !loop_S.
    destruct (iteration s g) as [[[s1 o1] [ | ]] g1].
    + exists []. cbn [fst]. symmetry. apply app_nil_r.
    + destruct (IH s1 g1) as [rest Hrest].
      destruct (loop (fuel + extra) s1 g1) as [[out2 r2] g2].
      destruct (loop fuel s1 g1) as [[out1 r1] g1'].
      cbn [fst] in *. exists rest. rewrite Hrest. apply app_assoc.
Qed.

(** The closed band is an invariant of the loop. *)
Lemma iteration_position_closed (s : sim) (g : rng) :
  unit_draws g ->
  position_closed (Turtle.lat (turtle s)) (Turtle.lon (turtle s)) ->
  position_closed (Yoke.lat (yoke s)) (Yoke.lon (yoke s)) ->
  let s' := fst (fst (fst (iteration s g))) in
  position_closed (Turtle.lat (turtle s')) (Turtle.lon (turtle s')) /\
  position_closed (Yoke.lat (yoke s')) (Yoke.lon (yoke s')) /\
  unit_draws (snd (iteration s g)).
Proof.
  intros Hg [_ Ht] [_ Hy]. cbv zeta.
  destruct (iteration_state s g) as [-> [-> _]].
  unfold moved_turtle, moved_yoke, position_closed.
  rewrite turtle_move_eq. cbn [fst snd Turtle.lat Turtle.lon].
  rewrite yoke_move_eq. cbn [fst Yoke.lat Yoke.lon].
  destruct (turtle_step_bound g Hg) as [_ Hb1].
  destruct (yoke_step_bound (skip g 2) (unit_draws_skip g 2 Hg)
              (Yoke.season_phase (yoke s)) (years_passed s)) as [_ Hb2].
  apply Rabs_le_between in Hb1, Hb2.
  repeat split; try apply clamp_lat_range; try (apply wrap_lon_range; lra).
  all: rewrite iteration_eq; cbv zeta;
    destruct (_ =? 0)%Z; [ destruct (Rle_dec _ _) | ];
    apply (unit_draws_skip g 6 Hg).
Qed.

(** ** A run that ends at the first breath *)

Lemma steady_skip (g : rng) (k : nat) : steady g -> steady (skip g k).
Proof.
  intros Hg j. unfold peek, skip. cbn [draws cursor].
  rewrite Nat.add_assoc. exact (Hg (j + k)%nat).
Qed.

Lemma steady_turtle (g : rng) :
  steady g -> turtle_lat_step g = 0 /\ turtle_lon_step g = - drift.
Proof.
  intros Hg. unfold turtle_lat_step, turtle_lon_step, turtle_angle,
    turtle_speed, drift.
  rewrite (Hg 0%nat), (Hg 1%nat).
  replace (0 + (2 * PI - 0) * (1 / 2)) with PI by lra.
  rewrite sin_PI, cos_PI. split; lra.
Qed.

Lemma steady_yoke (g : rng) (phase : R) (year : Z) :
  steady g ->
  yoke_lat_step phase year g = yoke_seasonal phase year /\
  yoke_lon_step g = 0.
Proof.
  intros Hg. unfold yoke_lat_step, yoke_lon_step, yoke_current_lat,
    yoke_current_lon, yoke_wind_lat, yoke_wind_lon.
  rewrite (Hg 0%nat), (Hg 1%nat), (Hg 2%nat), (Hg 3%nat). split; lra.
Qed.

Lemma seasonal_sum_S (phase : R) (k : nat) :
  seasonal_sum phase (S k)
  = seasonal_sum phase k + yoke_seasonal phase (Z.of_nat k).
Proof. reflexivity. Qed.

Lemma IZR_of_nat_S (k : nat) : IZR (Z.of_nat (S k)) = IZR (Z.of_nat k) + 1.
Proof. rewrite Nat2Z.inj_succ. apply succ_IZR. Qed.

Lemma seasonal_sum_bound (phase : R) (k : nat) :
  - IZR (Z.of_nat k) / 100 <= seasonal_sum phase k <= IZR (Z.of_nat k) / 100.
Proof.
  induction k as [ | k IH].
  - unfold seasonal_sum. simpl. lra.
  - rewrite seasonal_sum_S, IZR_of_nat_S.
    pose proof (Rabs_le_between _ _ (yoke_seasonal_bound phase (Z.of_nat k))).
    lra.
Qed.

Lemma IZR_of_nat_le (k n : nat) :
  (k <= n)%nat -> 0 <= IZR (Z.of_nat k) <= IZR (Z.of_nat n).
Proof.
  intros H. split; apply IZR_le; lia.
Qed.

Lemma trail_moves (k : nat) (g : rng) :
  steady g -> (k <= 99)%nat ->
  moved_turtle (trail k) g = turtle (trail (S k)) /\
  moved_yoke (trail k) g = yoke (trail (S k)).
Proof.
  intros Hg Hk.
  pose proof (IZR_of_nat_le k 99 Hk) as Hr.
  change (IZR (Z.of_nat 99)) with 99 in Hr.
  unfold moved_turtle, moved_yoke, trail. cbn [turtle yoke years_passed].
  rewrite turtle_move_eq. cbn [fst snd Turtle.lat Turtle.lon].
  rewrite yoke_move_eq. cbn [fst Yoke.lat Yoke.lon Yoke.season_phase].
  destruct (steady_turtle g Hg) as [-> ->].
  destruct (steady_yoke (skip g 2) PI (Z.of_nat k) (steady_skip g 2 Hg))
    as [-> ->].
  rewrite (seasonal_sum_S PI k), IZR_of_nat_S.
  pose proof (seasonal_sum_bound PI k) as Hk1.
  pose proof (seasonal_sum_bound PI 100) as Hk2.
  change (IZR (Z.of_nat 100)) with 100 in Hk2.
  pose proof (Rabs_le_between _ _ (yoke_seasonal_bound PI (Z.of_nat k))) as Hk3.
  unfold drift in *.
  split; f_equal.
  - rewrite clamp_lat_id by lra. lra.
  - rewrite wrap_lon_id by lra. lra.
  - rewrite clamp_lat_id by lra. lra.
  - rewrite wrap_lon_id by lra. lra.
Qed.

Lemma trail_step (k : nat) (g : rng) :
  steady g -> (k < 99)%nat ->
  iteration (trail k) g = (trail (S k), [], false, skip g 6).
Proof.
  intros Hg Hk. rewrite iteration_eq. cbv zeta.
  destruct (trail_moves k g Hg) as [-> ->]; [ lia | ].
  cbn [years_passed step trail].
  destruct (Z.eqb_spec ((Z.of_nat k + 1) mod 100) 0) as [Hm | _].
  - rewrite Z.mod_small in Hm by lia. lia.
  - replace (Z.of_nat k + 1)%Z with (Z.of_nat (S k)) by lia. reflexivity.
Qed.

Lemma trail_break (g : rng) :
  steady g ->
  iteration (trail 99) g =
  (mkSim (turtle (trail 100)) (yoke (trail 100)) 100 1,
   [Breath 1 100 0 (- 100 * drift) 0 (- 100 * drift); Success 100],
   true, skip g 6).
Proof.
  intros Hg. rewrite iteration_eq. cbv zeta.
  destruct (trail_moves 99 g Hg) as [-> ->]; [ lia | ].
  change (years_passed (trail 99) + 1)%Z with 100%Z.
  change (step (trail 99) + 1)%Z with 1%Z.
  change ((100 mod 100 =? 0)%Z) with true. cbv iota.
  destruct (Rle_dec _ _) as [_ | Hn].
  - repeat f_equal;
      unfold trail; cbn [turtle yoke Turtle.lat Turtle.lon Yoke.lat Yoke.lon];
      change (IZR (Z.of_nat 100)) with 100; lra.
  - exfalso. apply Hn. unfold breath_distance, SUCCESS_RADIUS.
    replace (distance_deg _ _ _ _) with 0; [ lra | ].
    symmetry. apply distance_deg_zero.
    unfold trail. cbn [turtle yoke Turtle.lat Turtle.lon Yoke.lat Yoke.lon].
    change (IZR (Z.of_nat 100)) with 100. split; lra.
Qed.

Lemma trail_runs (j k : nat) (g : rng) :
  steady g -> (k + j = 99)%nat ->
  runs (trail k) g
       [Breath 1 100 0 (- 100 * drift) 0 (- 100 * drift); Success 100] 100.
Proof.
  revert k g. induction j as [ | j IH]; intros k g Hg Hk.
  - replace k with 99%nat by lia.
    exact (runs_break _ _ _ _ _ (trail_break g Hg)).
  - exact (runs_again _ _ _ _ _ _ _
             (trail_step k g Hg ltac:(lia))
             (IH (S k) (skip g 6) (steady_skip g 6 Hg) ltac:(lia))).
Qed.

Lemma meeting_gen_unit : unit_draws meeting_gen.
Proof.
  intros n. cbn [draws meeting_gen].
  pose proof (seasonal_sum_bound PI 100) as Hs.
  change (IZR (Z.of_nat 100)) with 100 in Hs.
  destruct n as [ | [ | [ | [ | n]]]]; unfold meeting_draws, drift; lra.
Qed.

Lemma meeting_gen_steady : steady (skip meeting_gen 5).
Proof.
  intros j. unfold peek, skip. cbn [draws cursor meeting_gen].
  rewrite Nat.add_comm. reflexivity.
Qed.

Lemma meeting_init :
  Turtle.init meeting_gen = (turtle (trail 0), skip meeting_gen 2) /\
  Yoke.init (skip meeting_gen 2) = (yoke (trail 0), skip meeting_gen 5).
Proof.
  rewrite turtle_init_eq, yoke_init_eq. unfold trail, peek.
  cbn [turtle yoke draws cursor skip meeting_gen Nat.add meeting_draws].
  change (seasonal_sum PI 0) with 0. change (IZR (Z.of_nat 0)) with 0.
  split; f_equal; f_equal; unfold drift; lra.
Qed.

Lemma meeting_run : simulates meeting_gen meeting_out 100.
Proof.
  unfold simulates. destruct meeting_init as [-> ->].
  exists [Breath 1 100 0 (- 100 * drift) 0 (- 100 * drift); Success 100].
  split; [ reflexivity | ].
  exact (trail_runs 99 0 (skip meeting_gen 5) meeting_gen_steady eq_refl).
Qed.

(** A breath within reach and a near miss between breaths, side by side. *)
Lemma half_gen_steady : steady half_gen.
Proof. intros j. reflexivity. Qed.

Lemma near_miss_step (g : rng) :
  steady g ->
  iteration near_miss g =
  (mkSim (Turtle.mk 0 0) (Yoke.mk 0 0 PI) 1 0, [], false, skip g 6).
Proof.
  intros Hg. rewrite iteration_eq. cbv zeta.
  unfold moved_turtle, moved_yoke, near_miss.
  cbn [turtle yoke years_passed step].
  rewrite turtle_move_eq. cbn [fst snd Turtle.lat Turtle.lon].
  rewrite yoke_move_eq. cbn [fst Yoke.lat Yoke.lon Yoke.season_phase].
  destruct (steady_turtle g Hg) as [-> ->].
  destruct (steady_yoke (skip g 2) PI 0 (steady_skip g 2 Hg)) as [-> ->].
  replace (yoke_seasonal PI 0) with 0.
  - change ((0 + 1) mod 100 =? 0)%Z with false. cbv iota.
    unfold drift.
    rewrite !clamp_lat_id by lra. rewrite !wrap_lon_id by lra.
    repeat f_equal; lra.
  - unfold yoke_seasonal.
    replace (PI + 0 / 50) with PI by lra. rewrite sin_PI. lra.
Qed.

Lemma near_miss_distance :
  breath_distance (mkSim (Turtle.mk 0 0) (Yoke.mk 0 0 PI) 1 0) = 0.
Proof.
  unfold breath_distance. apply distance_deg_zero. split; reflexivity.
Qed.

Lemma loop_halts_iff_witness :
  loop 1 (trail 99) half_gen
  = ([Breath 1 100 0 (- 100 * drift) 0 (- 100 * drift); Success 100],
     Some 100%Z, skip half_gen 6) /\
  (breath_distance (mkSim (Turtle.mk 0 0) (Yoke.mk 0 0 PI) 1 0) <= 0.01 /\
   loop 1 near_miss half_gen = ([], None, skip half_gen 6)).
Proof.
  split.
  - pose proof (loop_halts_iff (trail 99) half_gen) as H.
    rewrite (trail_break half_gen half_gen_steady) in H.
    exact (proj2 (proj2 (proj2 H)) 0%nat).
  - pose proof (loop_halts_iff near_miss half_gen) as H.
    rewrite (near_miss_step half_gen half_gen_steady) in H.
    split.
    + rewrite near_miss_distance. lra.
    + exact (proj2 (proj2 (proj2 H)) 0%nat).
Defined.

(** * Beyond the claims *)

(** ** Utility functions *)

Lemma clamp_lat_cases (x : R) :
  (x < -90 /\ clamp_lat x = -90) \/
  (-90 <= x <= 90 /\ clamp_lat x = x) \/
  (90 < x /\ clamp_lat x = 90).
Proof.
  unfold clamp_lat, Rmax, Rmin.
  destruct (Rle_dec 90 x); destruct (Rle_dec _ _); lra.
Qed.

(** X1: [clamp_lat] always lands in [-90, 90]: an argument at or beyond a
    pole is pinned to that pole, one between the poles comes back unchanged,
    and clamping twice is clamping once. *)
Theorem clamp_lat_pins (x : R) :
  -90 <= clamp_lat x <= 90 /\
  (x <= -90 -> clamp_lat x = -90) /\
  (90 <= x -> clamp_lat x = 90) /\
  (-90 <= x <= 90 -> clamp_lat x = x) /\
  clamp_lat (clamp_lat x) = clamp_lat x.
Proof.
  destruct (clamp_lat_cases x) as [[H E] | [[H E] | [H E]]];
    destruct (clamp_lat_cases (clamp_lat x)) as [[H' E'] | [[H' E'] | [H' E']]];
    repeat split; intros; lra.
Qed.

Lemma clamp_lat_pins_witness :
  clamp_lat (-100) = -90 /\ clamp_lat 135 = 90 /\ clamp_lat 45 = 45.
Proof.
  split; [ | split ].
  - apply (proj1 (proj2 (clamp_lat_pins (-100)))). lra.
  - apply (proj1 (proj2 (proj2 (clamp_lat_pins 135)))). lra.
  - apply (proj1 (proj2 (proj2 (proj2 (clamp_lat_pins 45))))). lra.
Defined.

(** X2: [clamp_lat] is monotone and never stretches the difference of two
    latitudes. *)
Theorem clamp_lat_nonexpansive (x y : R) :
  (x <= y -> clamp_lat x <= clamp_lat y) /\
  Rabs (clamp_lat x - clamp_lat y) <= Rabs (x - y).
Proof.
  destruct (clamp_lat_cases x) as [[H E] | [[H E] | [H E]]];
    destruct (clamp_lat_cases y) as [[H' E'] | [[H' E'] | [H' E']]];
    rewrite E, E'; (split; [ intros; lra | ]);
    unfold Rabs; repeat destruct (Rcase_abs _); lra.
Qed.

Lemma wrap_lon_cases3 (x : R) :
  (x < -180 /\ wrap_lon x = x + 360) \/
  (-180 <= x <= 180 /\ wrap_lon x = x) \/
  (180 < x /\ wrap_lon x = x - 360).
Proof.
  destruct (Rlt_le_dec 180 x) as [Hgt | Hle].
  - right; right. split; [ exact Hgt | apply wrap_lon_over; exact Hgt ].
  - destruct (Rlt_le_dec x (-180)) as [Hlt | Hge].
    + left. split; [ exact Hlt | apply wrap_lon_under; exact Hlt ].
    + right; left. split; [ lra | apply wrap_lon_id; lra ].
Qed.

(** X3: [wrap_lon] is one pass, not a modulo: its result lies in
    [-180, 180] exactly for arguments in [-540, 540]; farther out it still
    shifts by 360 and the result stays outside the band. *)
Theorem wrap_lon_single_pass (x : R) :
  (-180 <= wrap_lon x <= 180 <-> -540 <= x <= 540) /\
  (540 < x -> wrap_lon x = x - 360 /\ 180 < wrap_lon x) /\
  (x < -540 -> wrap_lon x = x + 360 /\ wrap_lon x < -180).
Proof.
  destruct (wrap_lon_cases3 x) as [[H E] | [[H E] | [H E]]]; rewrite E;
    repeat split; intros; lra.
Qed.

Lemma wrap_lon_single_pass_witness :
  wrap_lon 1000 = 1000 - 360 /\ 180 < wrap_lon 1000.
Proof.
  apply (proj1 (proj2 (wrap_lon_single_pass 1000))). lra.
Defined.

(** X4: [wrap_lon] changes its argument by a full turn or not at all, never
    increases its magnitude, and on [-540, 540] wrapping twice is wrapping
    once. *)
Theorem wrap_lon_full_turn (x : R) :
  (wrap_lon x = x \/ wrap_lon x = x - 360 \/ wrap_lon x = x + 360) /\
  Rabs (wrap_lon x) <= Rabs x /\
  (-540 <= x <= 540 -> wrap_lon (wrap_lon x) = wrap_lon x).
Proof.
  destruct (wrap_lon_cases3 x) as [[H E] | [[H E] | [H E]]]; rewrite E.
  - split; [ tauto | split ].
    + unfold Rabs; repeat destruct (Rcase_abs _); lra.
    + intros Hb. apply wrap_lon_id. lra.
  - split; [ tauto | split ].
    + lra.
    + intros _. apply wrap_lon_id. lra.
  - split; [ tauto | split ].
    + unfold Rabs; repeat destruct (Rcase_abs _); lra.
    + intros Hb. apply wrap_lon_id. lra.
Qed.

Lemma wrap_lon_full_turn_witness : wrap_lon (wrap_lon 200) = wrap_lon 200.
Proof.
  apply (proj2 (proj2 (wrap_lon_full_turn 200))). lra.
Defined.

Lemma sqrt_sum_sq_bounds (a b : R) :
  0 <= sqrt (a ^ 2 + b ^ 2) /\
  Rabs a <= sqrt (a ^ 2 + b ^ 2) /\
  Rabs b <= sqrt (a ^ 2 + b ^ 2) /\
  sqrt (a ^ 2 + b ^ 2) <= Rabs a + Rabs b.
Proof.
  assert (Hs : 0 <= a ^ 2 + b ^ 2) by nra.
  pose proof (sqrt_pos (a ^ 2 + b ^ 2)) as H0.
  pose proof (sqrt_sqrt _ Hs) as Hsq.
  pose proof (Rabs_pos a) as Ha. pose proof (Rabs_pos b) as Hb.
  assert (Ha2 : Rabs a * Rabs a = a ^ 2).
  { unfold Rabs. destruct (Rcase_abs a); ring. }
  assert (Hb2 : Rabs b * Rabs b = b ^ 2).
  { unfold Rabs. destruct (Rcase_abs b); ring. }
  repeat split; nra.
Qed.

(** X6: [distance_deg] does not see the antimeridian: once [wrap_lon] has
    moved one longitude by a full turn, the distance to a point that was
    [|lon1 - lon2|] away in longitude is at least [360 - |lon1 - lon2|]. *)
Theorem distance_deg_antimeridian (lat1 lon1 lat2 lon2 : R) :
  (180 < lon1 ->
   distance_deg lat1 (wrap_lon lon1) lat2 lon2 >= 360 - Rabs (lon1 - lon2)) /\
  (lon1 < -180 ->
   distance_deg lat1 (wrap_lon lon1) lat2 lon2 >= 360 - Rabs (lon1 - lon2)).
Proof.
  split; intros H.
  - rewrite wrap_lon_over by exact H.
    pose proof (sqrt_sum_sq_bounds (lat1 - lat2) (lon1 - 360 - lon2))
      as [_ [_ [Hb _]]].
    unfold distance_deg. revert Hb.
    unfold Rabs; repeat destruct (Rcase_abs _); lra.
  - rewrite wrap_lon_under by exact H.
    pose proof (sqrt_sum_sq_bounds (lat1 - lat2) (lon1 + 360 - lon2))
      as [_ [_ [Hb _]]].
    unfold distance_deg. revert Hb.
    unfold Rabs; repeat destruct (Rcase_abs _); lra.
Qed.

Lemma distance_deg_antimeridian_witness :
  distance_deg 0 (wrap_lon 181) 0 179 >= 360 - Rabs (181 - 179).
Proof.
  apply (proj1 (distance_deg_antimeridian 0 181 0 179)). lra.
Defined.

(** ** [format_years] *)

Local Close Scope R_scope.

Example format_years_100 : format_years 100 = "100"%string.
Proof. reflexivity. Qed.
Example format_years_1000 : format_years 1000 = "1,000"%string.
Proof. reflexivity. Qed.
Example format_years_big : format_years 1234567 = "1,234,567"%string.
Proof. reflexivity. Qed.
Example format_years_neg : format_years (-123456) = "-123,456"%string.
Proof. reflexivity. Qed.
Example format_years_0 : format_years 0 = "0"%string.
Proof. reflexivity. Qed.

Lemma digits_not_comma (d : Decimal.uint) :
  forallb not_comma (list_ascii_of_string (NilEmpty.string_of_uint d)) = true.
Proof.
  induction d; cbn [NilEmpty.string_of_uint list_ascii_of_string forallb];
    try rewrite IHd; reflexivity.
Qed.

Lemma numeral_not_comma (d : Decimal.uint) :
  forallb not_comma (list_ascii_of_string (NilZero.string_of_uint d)) = true.
Proof.
  destruct d; try reflexivity; apply (digits_not_comma (_ d)).
Qed.

Lemma group_filter (ds : list ascii) (k : nat) :
  forallb not_comma ds = true -> filter not_comma (group ds k) = ds.
Proof.
  revert k. induction ds as [ | d ds IH]; intros k H; [ reflexivity | ].
  cbn [forallb] in H. apply andb_prop in H. destruct H as [Hd Hds].
  destruct k as [ | k]; cbn [group filter].
  - change (not_comma ",") with false. cbv iota. rewrite Hd, IH by exact Hds.
    reflexivity.
  - rewrite Hd, IH by exact Hds. reflexivity.
Qed.

Lemma forallb_rev (f : ascii -> bool) (l : list ascii) :
  forallb f l = true -> forallb f (rev l) = true.
Proof.
  rewrite !forallb_forall. intros H x Hx. apply H. apply in_rev. exact Hx.
Qed.

Lemma thousands_filter (ds : list ascii) :
  forallb not_comma ds = true -> filter not_comma (thousands ds) = ds.
Proof.
  intros H. unfold thousands. rewrite filter_rev, group_filter.
  - apply rev_involutive.
  - apply forallb_rev. exact H.
Qed.

Lemma drop_commas_filter (l : list ascii) :
  drop_commas (string_of_list_ascii l)
  = string_of_list_ascii (filter not_comma l).
Proof.
  induction l as [ | c l IH]; [ reflexivity | ].
  cbn [string_of_list_ascii drop_commas filter]. unfold not_comma at 1.
  destruct (Ascii.eqb c ","); cbn [negb]; rewrite IH; reflexivity.
Qed.

Lemma drop_commas_thousands (d : Decimal.uint) :
  drop_commas (string_of_list_ascii
                 (thousands (list_ascii_of_string (NilZero.string_of_uint d))))
  = NilZero.string_of_uint d.
Proof.
  rewrite drop_commas_filter, thousands_filter by apply numeral_not_comma.
  apply string_of_list_ascii_of_string.
Qed.

Lemma format_years_drop (n : Z) : drop_commas (format_years n) = decimal n.
Proof.
  unfold format_years, decimal.
  destruct (Z.to_int n) as [d | d]; cbn [NilZero.string_of_int].
  - apply drop_commas_thousands.
  - cbn [drop_commas]. change (Ascii.eqb "-" ",") with false. cbv iota.
    rewrite drop_commas_thousands. reflexivity.
Qed.

Lemma decimal_parses (n : Z) :
  NilZero.int_of_string (decimal n) = Some (Z.to_int n).
Proof.
  unfold decimal. apply NilZero.isi.
  - destruct n as [ | p | p]; cbn [Z.to_int]; try discriminate.
    intros H. injection H as H. exact (Unsigned.to_uint_nonnil p H).
  - destruct n as [ | p | p]; cbn [Z.to_int]; try discriminate.
    intros H. injection H as H. exact (Unsigned.to_uint_nonnil p H).
Qed.

(** X15: [format_years] only adds separators: with the commas dropped the
    text is the decimal numeral of the number, and it reads back as the
    number formatted. *)
Theorem format_years_round_trip (n : Z) :
  drop_commas (format_years n) = decimal n /\
  parse_years (format_years n) = Some n.
Proof.
  split; [ apply format_years_drop | ].
  unfold parse_years. rewrite format_years_drop, decimal_parses.
  cbn [option_map]. rewrite DecimalZ.of_to. reflexivity.
Qed.

Lemma mod4_S (i k : nat) : k <= 2 -> (S i mod 4 = S k <-> i mod 4 = k).
Proof.
  intros Hk.
  pose proof (Nat.div_mod_eq i 4). pose proof (Nat.div_mod_eq (S i) 4).
  pose proof (Nat.mod_upper_bound i 4).
  pose proof (Nat.mod_upper_bound (S i) 4).
  lia.
Qed.

Lemma mod4_SS (i : nat) : S (S i) mod 4 = 0 <-> i mod 4 = 2.
Proof.
  pose proof (Nat.div_mod_eq i 4). pose proof (Nat.div_mod_eq (S (S i)) 4).
  pose proof (Nat.mod_upper_bound i 4).
  pose proof (Nat.mod_upper_bound (S (S i)) 4).
  lia.
Qed.

Lemma not_comma_neq (c : ascii) : not_comma c = true -> c <> ","%char.
Proof.
  unfold not_comma. destruct (Ascii.eqb_spec c ","); [ discriminate | auto ].
Qed.

(** Where [group] puts its commas. *)
Lemma group_commas (ds : list ascii) (k i : nat) :
  k <= 3 -> forallb not_comma ds = true -> i < length (group ds k) ->
  (nth i (group ds k) " "%char = ","%char <-> i mod 4 = k).
Proof.
  revert k i. induction ds as [ | d ds IH]; intros k i Hk H Hi.
  - cbn [group length] in Hi. lia.
  - cbn [forallb] in H. apply andb_prop in H. destruct H as [Hd Hds].
    apply not_comma_neq in Hd.
    destruct k as [ | k]; cbn [group length nth] in *.
    + destruct i as [ | [ | i]].
      * split; reflexivity.
      * split; [ intros E; contradiction | discriminate ].
      * rewrite (IH 2 i) by (assumption || lia). symmetry. apply mod4_SS.
    + destruct i as [ | i].
      * split; [ intros E; contradiction | discriminate ].
      * rewrite (IH k i) by (assumption || lia). symmetry. apply mod4_S. lia.
Qed.

(** [group] always ends on a digit. *)
Lemma group_last (ds : list ascii) (k : nat) :
  forallb not_comma ds = true -> ds <> [] ->
  last (group ds k) ","%char <> ","%char.
Proof.
  revert k. induction ds as [ | d ds IH]; intros k H Hne; [ contradiction | ].
  cbn [forallb] in H. apply andb_prop in H. destruct H as [Hd Hds].
  apply not_comma_neq in Hd.
  destruct ds as [ | d' ds].
  - destruct k; cbn [group last]; exact Hd.
  - specialize (IH (match k with O => 2 | S k' => k' end) Hds
                   ltac:(discriminate)).
    destruct k as [ | [ | k]]; cbn [group] in *; exact IH.
Qed.

(** X16: [format_years] of a number that is not negative, read from the
    right, has its commas at the places 3, 7, 11, ... and nowhere else; the
    text is not empty and does not start with a comma. *)
Theorem format_years_commas (n : Z) :
  (0 <= n)%Z ->
  let backwards := rev (list_ascii_of_string (format_years n)) in
  (forall i : nat,
      i < length backwards ->
      (nth i backwards " "%char = ","%char <-> i mod 4 = 3)) /\
  (forall (c : ascii) (s : string),
      format_years n = String c s -> c <> ","%char) /\
  format_years n <> EmptyString.
Proof.
  intros Hn. unfold format_years.
  assert (Hpos : exists d, Z.to_int n = Decimal.Pos d /\ d <> Decimal.Nil).
  { destruct n as [ | p | p]; cbn [Z.to_int]; [ | | lia ].
    - exists Decimal.zero. split; [ reflexivity | discriminate ].
    - exists (Pos.to_uint p). split; [ reflexivity | ].
      apply Unsigned.to_uint_nonnil. }
  destruct Hpos as [d [-> Hd]].
  set (ds := list_ascii_of_string (NilZero.string_of_uint d)).
  assert (Hds : forallb not_comma (rev ds) = true).
  { apply forallb_rev. apply numeral_not_comma. }
  assert (Hne : rev ds <> []).
  { intros E. apply (f_equal (@rev ascii)) in E.
    rewrite rev_involutive in E. cbn [rev] in E.
    apply (f_equal string_of_list_ascii) in E. unfold ds in E.
    rewrite string_of_list_ascii_of_string in E.
    destruct d; discriminate E. }
  cbv zeta. rewrite list_ascii_of_string_of_list_ascii.
  unfold thousands. rewrite rev_involutive.
  pose proof (group_last (rev ds) 3 Hds Hne) as Hlast.
  split; [ | split ].
  - intros i Hi. apply group_commas; [ lia | exact Hds | exact Hi ].
  - intros c s E. destruct (rev (group (rev ds) 3)) as [ | c' l] eqn:Er.
    + discriminate E.
    + cbn [string_of_list_ascii] in E. injection E as -> _.
      apply (f_equal (@rev ascii)) in Er. rewrite rev_involutive in Er.
      rewrite Er in Hlast. cbn [rev] in Hlast.
      rewrite last_last in Hlast. exact Hlast.
  - destruct (rev ds) as [ | r rs] eqn:Er; [ contradiction | ].
    cbn [group rev].
    destruct (rev (group rs 2)); discriminate.
Qed.

Lemma format_years_commas_witness :
  nth 3 (rev (list_ascii_of_string (format_years 1234567))) " "%char
  = ","%char.
Proof.
  refine (proj2 (proj1 (format_years_commas 1234567 _) 3%nat _) _).
  - lia.
  - vm_compute. lia.
  - reflexivity.
Defined.

Local Open Scope R_scope.

(** ** The two [move] methods *)

Lemma turtle_step_length (g : rng) :
  unit_draws g ->
  sqrt (turtle_lat_step g ^ 2 + turtle_lon_step g ^ 2)
  = turtle_speed g / 111000.
Proof.
  intros Hg. destruct (turtle_draws_range g Hg) as [_ Hs].
  unfold turtle_lat_step, turtle_lon_step.
  replace ((turtle_speed g / 111000 * sin (turtle_angle g)) ^ 2
           + (turtle_speed g / 111000 * cos (turtle_angle g)) ^ 2)
    with (Rsqr (turtle_speed g / 111000)
          * (Rsqr (sin (turtle_angle g)) + Rsqr (cos (turtle_angle g))))
    by (unfold Rsqr; ring).
  rewrite sin2_cos2, Rmult_1_r.
  apply sqrt_Rsqr. lra.
Qed.

(** X7: when its step needs neither the clamp nor the wrap, [Turtle.move]
    carries the Turtle, as [distance_deg] measures it, at least
    [1000 / 111000] and at most [3000 / 111000] degrees.  Nothing is said
    of a step that is clamped at a pole or wrapped. *)
Theorem turtle_move_step_length (self : Turtle.t) (g : rng) :
  unit_draws g ->
  -90 <= Turtle.lat self + turtle_lat_step g <= 90 ->
  -180 <= Turtle.lon self + turtle_lon_step g <= 180 ->
  1000 / 111000
  <= distance_deg (Turtle.lat (fst (Turtle.move self g)))
                  (Turtle.lon (fst (Turtle.move self g)))
                  (Turtle.lat self) (Turtle.lon self)
  <= 3000 / 111000.
Proof.
  intros Hg Hlat Hlon. rewrite turtle_move_eq. cbn [fst Turtle.lat Turtle.lon].
  rewrite clamp_lat_id by exact Hlat. rewrite wrap_lon_id by exact Hlon.
  unfold distance_deg.
  replace (Turtle.lat self + turtle_lat_step g - Turtle.lat self)
    with (turtle_lat_step g) by ring.
  replace (Turtle.lon self + turtle_lon_step g - Turtle.lon self)
    with (turtle_lon_step g) by ring.
  rewrite (turtle_step_length g Hg).
  destruct (turtle_draws_range g Hg) as [_ Hs]. lra.
Qed.

Lemma turtle_move_step_length_witness :
  1000 / 111000
  <= distance_deg (Turtle.lat (fst (Turtle.move (Turtle.mk 0 0) half_gen)))
                  (Turtle.lon (fst (Turtle.move (Turtle.mk 0 0) half_gen)))
                  0 0
  <= 3000 / 111000.
Proof.
  refine (turtle_move_step_length (Turtle.mk 0 0) half_gen
            half_gen_unit _ _);
    destruct (steady_turtle half_gen half_gen_steady) as [E1 E2];
    rewrite ?E1, ?E2; cbn [Turtle.lat Turtle.lon]; unfold drift; lra.
Defined.

Lemma clamp_step (x d B : R) :
  -90 <= x <= 90 -> Rabs d <= B -> Rabs (clamp_lat (x + d) - x) <= B.
Proof.
  intros Hx Hd. apply Rabs_le_between in Hd. apply Rabs_le.
  destruct (clamp_lat_cases (x + d)) as [[H E] | [[H E] | [H E]]];
    rewrite E; lra.
Qed.

Lemma wrap_step (x d B : R) :
  -180 <= x <= 180 -> Rabs d <= B -> B <= 180 ->
  Rabs (wrap_lon (x + d) - x) <= B \/
  360 - B <= Rabs (wrap_lon (x + d) - x).
Proof.
  intros Hx Hd HB. apply Rabs_le_between in Hd.
  destruct (wrap_lon_cases3 (x + d)) as [[H E] | [[H E] | [H E]]]; rewrite E.
  - right. rewrite Rabs_right by lra. lra.
  - left. apply Rabs_le. lra.
  - right. rewrite Rabs_left by lra. lra.
Qed.

(** X8: from a position in the closed band [Turtle.move] changes the
    latitude by at most [3000 / 111000], clamp included, and the longitude
    by at most that much or, across the antimeridian, by a full turn less
    at most that much. *)
Theorem turtle_move_bounded (self : Turtle.t) (g : rng) :
  unit_draws g ->
  position_closed (Turtle.lat self) (Turtle.lon self) ->
  Rabs (Turtle.lat (fst (Turtle.move self g)) - Turtle.lat self)
    <= 3000 / 111000 /\
  (Rabs (Turtle.lon (fst (Turtle.move self g)) - Turtle.lon self)
     <= 3000 / 111000 \/
   360 - 3000 / 111000
     <= Rabs (Turtle.lon (fst (Turtle.move self g)) - Turtle.lon self)).
Proof.
  intros Hg [Hlat Hlon]. rewrite turtle_move_eq. cbn [fst Turtle.lat Turtle.lon].
  destruct (turtle_step_bound g Hg) as [Hb1 Hb2].
  split; [ apply clamp_step | apply wrap_step ]; try assumption. lra.
Qed.

Lemma turtle_move_bounded_witness :
  Rabs (Turtle.lat (fst (Turtle.move (Turtle.mk 90 180) half_gen)) - 90)
    <= 3000 / 111000.
Proof.
  refine (proj1 (turtle_move_bounded (Turtle.mk 90 180) half_gen
                   half_gen_unit _)).
  unfold position_closed. cbn [Turtle.lat Turtle.lon]. lra.
Defined.

(** X9: from a position in the closed band [Yoke.move] changes the latitude
    by at most 0.017, clamp included, and the longitude by at most 0.012 or,
    across the antimeridian, by a full turn less at most 0.012. *)
Theorem yoke_move_bounded (self : Yoke.t) (year : Z) (g : rng) :
  unit_draws g ->
  position_closed (Yoke.lat self) (Yoke.lon self) ->
  Rabs (Yoke.lat (fst (Yoke.move self year g)) - Yoke.lat self) <= 0.017 /\
  (Rabs (Yoke.lon (fst (Yoke.move self year g)) - Yoke.lon self) <= 0.012 \/
   360 - 0.012
     <= Rabs (Yoke.lon (fst (Yoke.move self year g)) - Yoke.lon self)).
Proof.
  intros Hg [Hlat Hlon]. rewrite yoke_move_eq. cbn [fst Yoke.lat Yoke.lon].
  destruct (yoke_step_bound g Hg (Yoke.season_phase self) year) as [Hb1 Hb2].
  split; [ apply clamp_step | apply wrap_step ]; try assumption. lra.
Qed.

Lemma yoke_move_bounded_witness :
  Rabs (Yoke.lat (fst (Yoke.move (Yoke.mk (-90) (-180) 0) 7 half_gen))
        - -90) <= 0.017.
Proof.
  refine (proj1 (yoke_move_bounded (Yoke.mk (-90) (-180) 0) 7 half_gen
                   half_gen_unit _)).
  unfold position_closed. cbn [Yoke.lat Yoke.lon]. lra.
Defined.

(** ** The simulation as a whole *)

(** The three ways out of one iteration, with what each one tells. *)
Lemma iteration_cases (s : sim) (g : rng) :
  let t' := moved_turtle s g in
  let y' := moved_yoke s g in
  let n' := (years_passed s + 1)%Z in
  ((n' mod 100 <> 0)%Z /\
   iteration s g = (mkSim t' y' n' (step s), [], false, skip g 6)) \/
  ((n' mod 100 = 0)%Z /\
   ~ breath_distance (mkSim t' y' n' (step s + 1)) <= SUCCESS_RADIUS /\
   iteration s g =
   (mkSim t' y' n' (step s + 1),
    [Breath (step s + 1) n' (Turtle.lat t') (Turtle.lon t')
            (Yoke.lat y') (Yoke.lon y')],
    false, skip g 6)) \/
  ((n' mod 100 = 0)%Z /\
   breath_distance (mkSim t' y' n' (step s + 1)) <= SUCCESS_RADIUS /\
   iteration s g =
   (mkSim t' y' n' (step s + 1),
    [Breath (step s + 1) n' (Turtle.lat t') (Turtle.lon t')
            (Yoke.lat y') (Yoke.lon y'); Success n'],
    true, skip g 6)).
Proof.
  cbv zeta. rewrite iteration_eq. cbv zeta.
  destruct (Z.eqb_spec ((years_passed s + 1) mod 100) 0) as [Hm | Hm].
  - destruct (Rle_dec _ _) as [Hd | Hd].
    + right; right. repeat split; assumption.
    + right; left. repeat split; assumption.
  - left. split; [ assumption | reflexivity ].
Qed.

Lemma skip_skip (g : rng) (a b : nat) : skip (skip g a) b = skip g (a + b).
Proof.
  unfold skip. cbn [draws cursor]. f_equal. lia.
Qed.

Lemma counted_quiet (y : Z) :
  (0 <= y)%Z -> ((y + 1) mod 100 <> 0)%Z -> ((y + 1) / 100 = y / 100)%Z.
Proof. intros. Z.div_mod_to_equations. lia. Qed.

Lemma counted_breath (y : Z) :
  (0 <= y)%Z -> ((y + 1) mod 100 = 0)%Z ->
  ((y + 1) / 100 = y / 100 + 1)%Z /\ (y + 1 = 100 * (y / 100 + 1))%Z.
Proof. intros. Z.div_mod_to_equations. lia. Qed.

(** What a complete run from a counted state prints. *)
Lemma runs_shape (s : sim) (g : rng) (out : list report) (n : Z) :
  runs s g out n -> counted s ->
  exists (ps : list sighting) (p : sighting),
    out = breaths_of (step s + 1) (ps ++ [p]) ++ [Success n] /\
    n = (100 * (step s + Z.of_nat (length ps) + 1))%Z /\
    Forall (fun q => ~ close q) ps /\ close p.
Proof.
  induction 1 as [s g s1 o1 g1 E1 | s g s1 o1 g1 rest n E1 _ IH];
    intros [Hy Hs].
  - destruct (iteration_cases s g) as [[_ E] | [[_ [_ E]] | [Hm [Hd E]]]];
      rewrite E in E1; inversion E1; subst; clear E1.
    destruct (counted_breath _ Hy Hm) as [_ Hn].
    exists [], (Turtle.lat (moved_turtle s g), Turtle.lon (moved_turtle s g),
                Yoke.lat (moved_yoke s g), Yoke.lon (moved_yoke s g)).
    cbn [years_passed app breaths_of length]. rewrite Hs.
    split; [ | split; [ | split ] ].
    + rewrite <- Hn. reflexivity.
    + change (Z.of_nat 0) with 0%Z. lia.
    + constructor.
    + exact Hd.
  - destruct (iteration_cases s g) as [[Hm E] | [[Hm [Hd E]] | [_ [_ E]]]];
      rewrite E in E1; inversion E1; subst; clear E1.
    + destruct IH as [ps [p [Hout [Hn [Hfar Hclose]]]]].
      { split; cbn [years_passed step]; [ lia | ].
        rewrite counted_quiet by assumption. exact Hs. }
      cbn [years_passed step] in *.
      exists ps, p. repeat split; assumption.
    + destruct (counted_breath _ Hy Hm) as [Hq Hn'].
      destruct IH as [ps [p [Hout [Hn [Hfar Hclose]]]]].
      { split; cbn [years_passed step]; [ lia | ]. rewrite Hq, Hs. reflexivity. }
      cbn [years_passed step] in *.
      exists ((Turtle.lat (moved_turtle s g), Turtle.lon (moved_turtle s g),
               Yoke.lat (moved_yoke s g), Yoke.lon (moved_yoke s g)) :: ps), p.
      split; [ | split; [ | split ] ].
      * assert (Hk : (100 * (step s + 1) = years_passed s + 1)%Z) by lia.
        rewrite Hout. cbn [app breaths_of]. rewrite Hk. reflexivity.
      * rewrite Hn. cbn [length]. lia.
      * constructor; [ exact Hd | exact Hfar ].
      * exact Hclose.
Qed.

Lemma simulates_runs (g : rng) (out : list report) (n : Z) :
  simulates g out n <->
  exists rest,
    out = Starting :: rest /\
    runs (mkSim (fst (Turtle.init g))
                (fst (Yoke.init (snd (Turtle.init g)))) 0 0)
         (snd (Yoke.init (snd (Turtle.init g)))) rest n.
Proof.
  unfold simulates.
  destruct (Turtle.init g) as [turtle0 g1]. cbn [fst snd].
  destruct (Yoke.init g1) as [yoke0 g2]. reflexivity.
Qed.

Lemma counted_start (t : Turtle.t) (y : Yoke.t) : counted (mkSim t y 0 0).
Proof. split; reflexivity. Qed.

(** X10: a complete run prints the banner, then breaths numbered 1, 2, ...
    in the years 100, 200, ..., then the success line; the total is 100
    times the number of breaths, every breath but the last saw the two
    farther apart than the success radius and the last saw them within it. *)
Theorem simulate_output_shape (g : rng) (out : list report) (n : Z) :
  simulates g out n ->
  exists (ps : list sighting) (p : sighting),
    out = Starting :: breaths_of 1 (ps ++ [p]) ++ [Success n] /\
    n = (100 * (Z.of_nat (length ps) + 1))%Z /\
    Forall (fun q => ~ close q) ps /\ close p.
Proof.
  intros H. apply simulates_runs in H. destruct H as [rest [-> Hr]].
  destruct (runs_shape _ _ _ _ Hr (counted_start _ _))
    as [ps [p [Hout [Hn [Hfar Hclose]]]]].
  exists ps, p. rewrite Hout. repeat split; assumption.
Qed.

Lemma simulate_output_shape_witness :
  exists (ps : list sighting) (p : sighting),
    meeting_out = Starting :: breaths_of 1 (ps ++ [p]) ++ [Success 100] /\
    100%Z = (100 * (Z.of_nat (length ps) + 1))%Z /\
    Forall (fun q => ~ close q) ps /\ close p.
Proof.
  exact (simulate_output_shape meeting_gen meeting_out 100 meeting_run).
Defined.

Lemma iteration_gen (s : sim) (g : rng) : snd (iteration s g) = skip g 6.
Proof.
  destruct (iteration_cases s g) as [[_ E] | [[_ [_ E]] | [_ [_ E]]]];
    rewrite E; reflexivity.
Qed.

Lemma iteration_years (s : sim) (g : rng) :
  years_passed (fst (fst (fst (iteration s g)))) = (years_passed s + 1)%Z.
Proof. exact (proj2 (proj2 (iteration_state s g))). Qed.

(** How far the loop got: the years it adds and the draws it takes. *)
Lemma loop_progress (fuel : nat) (s : sim) (g : rng) :
  match snd (fst (loop fuel s g)) with
  | Some n =>
      exists k : nat,
        (1 <= k <= fuel)%nat /\
        n = (years_passed s + Z.of_nat k)%Z /\
        snd (loop fuel s g) = skip g (6 * k)
  | None => snd (loop fuel s g) = skip g (6 * fuel)
  end.
Proof.
  revert s g. induction fuel as [ | fuel IH]; intros s g.
  - destruct g. reflexivity.
  - rewrite loop_S.
    pose proof (iteration_gen s g) as Hg.
    pose proof (iteration_years s g) as Hn.
    destruct (iteration s g) as [[[s1 o1] [ | ]] g1];
      cbn [fst snd] in Hg, Hn; subst g1.
    + cbn [fst snd]. exists 1%nat.
      split; [ lia | split; [ rewrite Hn; reflexivity | reflexivity ] ].
    + specialize (IH s1 (skip g 6)).
      destruct (loop fuel s1 (skip g 6)) as [[rest r] g2].
      cbn [fst snd] in *. destruct r as [n | ].
      * destruct IH as [k [Hk [Hnk Hg2]]]. exists (S k).
        split; [ lia | split; [ lia | ] ].
        rewrite Hg2, skip_skip. f_equal. lia.
      * rewrite IH, skip_skip. f_equal. lia.
Qed.

Lemma simulate_start (fuel : nat) (g : rng) :
  simulate fuel g =
  (Starting :: fst (fst (loop fuel (start g) (skip g 5))),
   snd (fst (loop fuel (start g) (skip g 5))),
   snd (loop fuel (start g) (skip g 5))).
Proof.
  rewrite simulate_eq. unfold start. rewrite turtle_init_eq.
  cbn [fst snd]. rewrite yoke_init_eq. cbn [fst snd].
  rewrite skip_skip. cbn [Nat.add].
  destruct (loop fuel _ _) as [[rest r] g3]. reflexivity.
Qed.

(** X11: [simulate] takes five draws to create the two entities and six for
    every iteration, and leaves the sequence of draws as it was; a total of
    years it returns is the number of iterations made, at most the fuel. *)
Theorem simulate_draws (fuel : nat) (g : rng) :
  draws (snd (simulate fuel g)) = draws g /\
  match snd (fst (simulate fuel g)) with
  | Some n =>
      (1 <= n <= Z.of_nat fuel)%Z /\
      cursor (snd (simulate fuel g)) = (6 * Z.to_nat n + 5 + cursor g)%nat
  | None => cursor (snd (simulate fuel g)) = (6 * fuel + 5 + cursor g)%nat
  end.
Proof.
  rewrite simulate_start. cbn [fst snd].
  pose proof (loop_progress fuel (start g) (skip g 5)) as H.
  destruct (snd (fst (loop fuel (start g) (skip g 5)))) as [n | ].
  - destruct H as [k [Hk [Hn ->]]]. cbn [start years_passed] in Hn.
    split; [ reflexivity | split; [ lia | ] ].
    cbn [skip draws cursor]. lia.
  - rewrite H. split; [ reflexivity | ]. cbn [skip draws cursor]. lia.
Qed.

Lemma loop_quiet (fuel : nat) (s : sim) (g : rng) :
  (0 <= years_passed s)%Z ->
  (years_passed s mod 100 + Z.of_nat fuel < 100)%Z ->
  fst (loop fuel s g) = ([], None).
Proof.
  revert s g. induction fuel as [ | fuel IH]; intros s g Hy Hf.
  - reflexivity.
  - rewrite loop_S.
    destruct (iteration_cases s g) as [[Hm E] | [[Hm _] | [Hm _]]].
    + rewrite E.
      specialize (IH (mkSim (moved_turtle s g) (moved_yoke s g)
                            (years_passed s + 1) (step s)) (skip g 6)).
      cbn [years_passed] in IH.
      assert (Hq : fst (loop fuel (mkSim (moved_turtle s g) (moved_yoke s g)
                                         (years_passed s + 1) (step s))
                             (skip g 6)) = ([], None)).
      { apply IH; [ lia | ]. revert Hf Hm. Z.div_mod_to_equations. lia. }
      destruct (loop fuel _ _) as [[rest r] g2]. cbn [fst snd] in *.
      inversion Hq; subst. reflexivity.
    + exfalso. revert Hf Hm. Z.div_mod_to_equations. lia.
    + exfalso. revert Hf Hm. Z.div_mod_to_equations. lia.
Qed.

(** X12: nothing is reported and nothing can succeed before year 100:
    cut off after fewer than 100 iterations, [simulate] has printed the
    banner only and has not ended. *)
Theorem simulate_quiet_century (fuel : nat) (g : rng) :
  (fuel < 100)%nat -> fst (simulate fuel g) = ([Starting], None).
Proof.
  intros Hf. rewrite simulate_start. cbn [fst snd].
  rewrite (loop_quiet fuel (start g) (skip g 5)); [ reflexivity | | ];
    cbn [start years_passed]; [ lia | ].
  change (0 mod 100)%Z with 0%Z. lia.
Qed.

Lemma simulate_quiet_century_witness :
  fst (simulate 99 half_gen) = ([Starting], None).
Proof.
  apply (simulate_quiet_century 99 half_gen). lia.
Defined.

Lemma loop_reports_closed (fuel : nat) (s : sim) (g : rng) :
  unit_draws g ->
  position_closed (Turtle.lat (turtle s)) (Turtle.lon (turtle s)) ->
  position_closed (Yoke.lat (yoke s)) (Yoke.lon (yoke s)) ->
  Forall report_closed (fst (fst (loop fuel s g))).
Proof.
  revert s g. induction fuel as [ | fuel IH]; intros s g Hg Ht Hy.
  - constructor.
  - rewrite loop_S.
    destruct (iteration_position_closed s g Hg Ht Hy) as [Ht' [Hy' Hg']].
    destruct (iteration_state s g) as [Et [Ey _]].
    rewrite Et in Ht'. rewrite Ey in Hy'.
    rewrite iteration_gen in Hg'.
    destruct (iteration_cases s g) as [[_ E] | [[_ [_ E]] | [_ [_ E]]]];
      rewrite E.
    + specialize (IH (mkSim (moved_turtle s g) (moved_yoke s g)
                            (years_passed s + 1) (step s)) (skip g 6)
                     Hg' Ht' Hy').
      destruct (loop fuel _ _) as [[rest r] g2]. exact IH.
    + specialize (IH (mkSim (moved_turtle s g) (moved_yoke s g)
                            (years_passed s + 1) (step s + 1)) (skip g 6)
                     Hg' Ht' Hy').
      destruct (loop fuel _ _) as [[rest r] g2]. cbn [fst snd app] in *.
      constructor; [ split; assumption | exact IH ].
    + cbn [fst]. constructor; [ split; assumption | ].
      constructor; [ exact I | constructor ].
Qed.

(** X13: with draws in [0, 1), every position a breath reports, at any
    point of a run, ended or not, lies in latitude [-90, 90] and longitude
    [-180, 180]. *)
Theorem simulate_reports_closed (fuel : nat) (g : rng) :
  unit_draws g -> Forall report_closed (fst (fst (simulate fuel g))).
Proof.
  intros Hg. rewrite simulate_start. cbn [fst].
  constructor; [ exact I | ].
  destruct (init_ranges g Hg) as [[Ht1 Ht2] _].
  destruct (init_ranges (skip g 2) (unit_draws_skip g 2 Hg))
    as [_ [[Hy1 Hy2] _]].
  apply loop_reports_closed.
  - apply unit_draws_skip. exact Hg.
  - unfold position_closed, start. cbn [turtle]. lra.
  - unfold position_closed, start. cbn [yoke].
    rewrite turtle_init_eq. cbn [snd]. lra.
Qed.

Lemma simulate_reports_closed_witness :
  Forall report_closed (fst (fst (simulate 250 meeting_gen))).
Proof.
  exact (simulate_reports_closed 250 meeting_gen meeting_gen_unit).
Defined.

Lemma meridian_bound_next (g : rng) :
  meridian_bound g -> meridian_bound (skip g 6).
Proof.
  intros Hg k. destruct (Hg (S k)) as [H0 [H3 H5]].
  unfold peek, skip in *. cbn [draws cursor].
  replace (6 * k + (6 + cursor g))%nat with (6 * S k + cursor g)%nat by lia.
  replace (6 * k + 3 + (6 + cursor g))%nat
    with (6 * S k + 3 + cursor g)%nat by lia.
  replace (6 * k + 5 + (6 + cursor g))%nat
    with (6 * S k + 5 + cursor g)%nat by lia.
  repeat split; assumption.
Qed.

(** Under such a generator neither longitude changes. *)
Lemma meridian_bound_lons (s : sim) (g : rng) :
  meridian_bound g ->
  -180 <= Turtle.lon (turtle s) <= 180 ->
  -180 <= Yoke.lon (yoke s) <= 180 ->
  Turtle.lon (moved_turtle s g) = Turtle.lon (turtle s) /\
  Yoke.lon (moved_yoke s g) = Yoke.lon (yoke s).
Proof.
  intros Hg Ht Hy. destruct (Hg 0%nat) as [H0 [H3 H5]].
  change (6 * 0)%nat with 0%nat in H0.
  change (6 * 0 + 3)%nat with 3%nat in H3.
  change (6 * 0 + 5)%nat with 5%nat in H5.
  unfold moved_turtle, moved_yoke.
  rewrite turtle_move_eq. cbn [fst snd Turtle.lon].
  rewrite yoke_move_eq. cbn [fst Yoke.lon].
  assert (Et : turtle_lon_step g = 0).
  { unfold turtle_lon_step, turtle_angle. rewrite H0.
    replace (0 + (2 * PI - 0) * (1 / 4)) with (PI / 2) by lra.
    rewrite cos_PI2. ring. }
  assert (Ey : yoke_lon_step (skip g 2) = 0).
  { unfold yoke_lon_step, yoke_current_lon, yoke_wind_lon.
    change (peek (skip g 2) 1) with (peek g 3).
    change (peek (skip g 2) 3) with (peek g 5).
    rewrite H3, H5. lra. }
  rewrite Et, Ey, !Rplus_0_r.
  split; apply wrap_lon_id; assumption.
Qed.

Lemma loop_meridian_bound (fuel : nat) (s : sim) (g : rng) :
  meridian_bound g ->
  -180 <= Turtle.lon (turtle s) <= 180 ->
  -180 <= Yoke.lon (yoke s) <= 180 ->
  SUCCESS_RADIUS < Rabs (Turtle.lon (turtle s) - Yoke.lon (yoke s)) ->
  snd (fst (loop fuel s g)) = None.
Proof.
  revert s g. induction fuel as [ | fuel IH]; intros s g Hg Ht Hy Hd.
  - reflexivity.
  - rewrite loop_S.
    destruct (meridian_bound_lons s g Hg Ht Hy) as [Et Ey].
    pose proof (meridian_bound_next g Hg) as Hg'.
    destruct (iteration_cases s g) as [[_ E] | [[_ [_ E]] | [_ [Hc _]]]].
    + rewrite E.
      specialize (IH (mkSim (moved_turtle s g) (moved_yoke s g)
                            (years_passed s + 1) (step s)) (skip g 6) Hg').
      cbn [turtle yoke] in IH. rewrite Et, Ey in IH.
      specialize (IH Ht Hy Hd).
      destruct (loop fuel _ _) as [[rest r] g2]. exact IH.
    + rewrite E.
      specialize (IH (mkSim (moved_turtle s g) (moved_yoke s g)
                            (years_passed s + 1) (step s + 1)) (skip g 6) Hg').
      cbn [turtle yoke] in IH. rewrite Et, Ey in IH.
      specialize (IH Ht Hy Hd).
      destruct (loop fuel _ _) as [[rest r] g2]. exact IH.
    + exfalso. unfold breath_distance in Hc. cbn [turtle yoke] in Hc.
      rewrite Et, Ey in Hc.
      pose proof (sqrt_sum_sq_bounds
                    (Turtle.lat (moved_turtle s g) - Yoke.lat (moved_yoke s g))
                    (Turtle.lon (turtle s) - Yoke.lon (yoke s)))
        as [_ [_ [Hb _]]].
      unfold distance_deg in Hc. lra.
Qed.

Lemma apart_draws_late (n : nat) :
  (4 <= n)%nat ->
  apart_draws n = if (n mod 6 =? 5)%nat then 1 / 4 else 1 / 2.
Proof.
  intros Hn. destruct n as [ | [ | [ | [ | n]]]]; try lia. reflexivity.
Qed.

Lemma apart_gen_unit : unit_draws apart_gen.
Proof.
  intros n. cbn [draws apart_gen].
  destruct n as [ | [ | [ | [ | n]]]]; unfold apart_draws;
    try destruct (_ =? _)%nat; lra.
Qed.

Lemma apart_gen_meridian_bound : meridian_bound (skip apart_gen 5).
Proof.
  intros k. unfold peek, skip. cbn [draws cursor apart_gen].
  rewrite !apart_draws_late by lia.
  replace (6 * k + (5 + 0))%nat with (5 + k * 6)%nat by lia.
  replace (6 * k + 3 + (5 + 0))%nat with (2 + S k * 6)%nat by lia.
  replace (6 * k + 5 + (5 + 0))%nat with (4 + S k * 6)%nat by lia.
  rewrite !Nat.Div0.mod_add. repeat split; reflexivity.
Qed.

Lemma apart_gen_never_halts (fuel : nat) :
  snd (fst (simulate fuel apart_gen)) = None.
Proof.
  rewrite simulate_start. cbn [fst snd].
  assert (Ht : Turtle.lon (turtle (start apart_gen)) = 90).
  { unfold start. rewrite turtle_init_eq.
    cbn [turtle fst Turtle.lon]. unfold peek. cbn [draws cursor apart_gen].
    change (apart_draws (1 + 0)) with (3 / 4). lra. }
  assert (Hy : Yoke.lon (yoke (start apart_gen)) = -90).
  { unfold start. rewrite turtle_init_eq. cbn [snd]. rewrite yoke_init_eq.
    cbn [yoke fst Yoke.lon]. unfold peek, skip.
    cbn [draws cursor apart_gen].
    change (apart_draws (1 + (2 + 0))) with (1 / 4). lra. }
  apply loop_meridian_bound.
  - exact apart_gen_meridian_bound.
  - rewrite Ht. lra.
  - rewrite Hy. lra.
  - rewrite Ht, Hy. unfold SUCCESS_RADIUS. rewrite Rabs_right; lra.
Qed.

(** X14: the loop need not end.  If every heading drawn is due north and the
    Yoke's longitude draws cancel, neither longitude ever changes, and two
    entities whose longitudes differ by more than the success radius never
    meet; a generator with draws in [0, 1) under which [simulate] runs
    forever exists. *)
Theorem loop_may_run_forever :
  (forall (fuel : nat) (s : sim) (g : rng),
      meridian_bound g ->
      -180 <= Turtle.lon (turtle s) <= 180 ->
      -180 <= Yoke.lon (yoke s) <= 180 ->
      SUCCESS_RADIUS < Rabs (Turtle.lon (turtle s) - Yoke.lon (yoke s)) ->
      snd (fst (loop fuel s g)) = None) /\
  (exists g : rng,
      unit_draws g /\
      forall fuel : nat, snd (fst (simulate fuel g)) = None).
Proof.
  split.
  - exact loop_meridian_bound.
  - exists apart_gen.
    split; [ exact apart_gen_unit | exact apart_gen_never_halts ].
Qed.

(** * Runs that agree on their draws *)

Lemma same_draws_skip (g1 g2 : rng) (a k : nat) :
  same_draws g1 g2 (a + k) -> same_draws (skip g1 a) (skip g2 a) k.
Proof.
  intros H j Hj. unfold peek, skip. cbn [draws cursor].
  rewrite !Nat.add_assoc. apply (H (j + a)%nat). lia.
Qed.

Lemma same_draws_le (g1 g2 : rng) (k k' : nat) :
  (k' <= k)%nat -> same_draws g1 g2 k -> same_draws g1 g2 k'.
Proof. intros Hk H j Hj. apply H. lia. Qed.

Lemma turtle_init_same (g1 g2 : rng) :
  same_draws g1 g2 2 -> fst (Turtle.init g1) = fst (Turtle.init g2).
Proof.
  intros H. rewrite !turtle_init_eq. cbn [fst].
  rewrite (H 0%nat), (H 1%nat) by lia. reflexivity.
Qed.

Lemma yoke_init_same (g1 g2 : rng) :
  same_draws g1 g2 3 -> fst (Yoke.init g1) = fst (Yoke.init g2).
Proof.
  intros H. rewrite !yoke_init_eq. cbn [fst].
  rewrite (H 0%nat), (H 1%nat), (H 2%nat) by lia. reflexivity.
Qed.

Lemma turtle_move_same (self : Turtle.t) (g1 g2 : rng) :
  same_draws g1 g2 2 ->
  fst (Turtle.move self g1) = fst (Turtle.move self g2).
Proof.
  intros H. rewrite !turtle_move_eq. cbn [fst].
  unfold turtle_lat_step, turtle_lon_step, turtle_speed, turtle_angle.
  rewrite (H 0%nat), (H 1%nat) by lia. reflexivity.
Qed.

Lemma yoke_move_same (self : Yoke.t) (year : Z) (g1 g2 : rng) :
  same_draws g1 g2 4 ->
  fst (Yoke.move self year g1) = fst (Yoke.move self year g2).
Proof.
  intros H. rewrite !yoke_move_eq. cbn [fst].
  unfold yoke_lat_step, yoke_lon_step, yoke_current_lat, yoke_current_lon,
    yoke_wind_lat, yoke_wind_lon.
  rewrite (H 0%nat), (H 1%nat), (H 2%nat), (H 3%nat) by lia. reflexivity.
Qed.

(** One iteration sees the generator only through its next six draws. *)
Lemma iteration_same (s : sim) (g1 g2 : rng) :
  same_draws g1 g2 6 -> fst (iteration s g1) = fst (iteration s g2).
Proof.
  intros H.
  assert (Ht : moved_turtle s g1 = moved_turtle s g2).
  { apply turtle_move_same. apply (same_draws_le g1 g2 6); [ lia | exact H ]. }
  assert (Hy : moved_yoke s g1 = moved_yoke s g2).
  { unfold moved_yoke. rewrite !turtle_move_eq. cbn [snd].
    apply yoke_move_same. apply (same_draws_skip g1 g2 2 4). exact H. }
  rewrite !iteration_eq. cbv zeta. rewrite Ht, Hy.
  destruct (_ =? 0)%Z; [ destruct (Rle_dec _ _) | ]; reflexivity.
Qed.

Lemma loop_same (fuel : nat) (s : sim) (g1 g2 : rng) :
  same_draws g1 g2 (6 * fuel) -> fst (loop fuel s g1) = fst (loop fuel s g2).
Proof.
  revert s g1 g2. induction fuel as [ | fuel IH]; intros s g1 g2 H.
  - reflexivity.
  - rewrite !loop_S.
    assert (H6 : same_draws g1 g2 6).
    { apply (same_draws_le g1 g2 (6 * S fuel)); [ lia | exact H ]. }
    pose proof (iteration_same s g1 g2 H6) as E.
    pose proof (iteration_gen s g1) as E1.
    pose proof (iteration_gen s g2) as E2.
    destruct (iteration s g1) as [[[s1 o1] h1] g1'].
    destruct (iteration s g2) as [[[s2 o2] h2] g2'].
    cbn [fst snd] in E, E1, E2. inversion E; subst.
    destruct h2; [ reflexivity | ].
    specialize (IH s2 (skip g1 6) (skip g2 6)).
    rewrite (surjective_pairing (loop fuel s2 (skip g1 6))).
    rewrite (surjective_pairing (loop fuel s2 (skip g2 6))).
    cbn [fst snd]. rewrite IH; [ reflexivity | ].
    apply same_draws_skip.
    replace (6 + 6 * fuel)%nat with (6 * S fuel)%nat by lia. exact H.
Qed.

Lemma start_same (g1 g2 : rng) :
  same_draws g1 g2 5 -> start g1 = start g2.
Proof.
  intros H. unfold start.
  rewrite (turtle_init_same g1 g2)
    by (apply (same_draws_le g1 g2 5); [ lia | exact H ]).
  rewrite !turtle_init_eq. cbn [snd].
  rewrite (yoke_init_same (skip g1 2) (skip g2 2)); [ reflexivity | ].
  apply (same_draws_skip g1 g2 2 3). exact H.
Qed.

Lemma simulate_same (fuel : nat) (g1 g2 : rng) :
  same_draws g1 g2 (5 + 6 * fuel) ->
  fst (simulate fuel g1) = fst (simulate fuel g2).
Proof.
  intros H. rewrite !simulate_start. cbn [fst snd].
  rewrite (start_same g1 g2)
    by (apply (same_draws_le g1 g2 (5 + 6 * fuel)); [ lia | exact H ]).
  rewrite (loop_same fuel (start g2) (skip g1 5) (skip g2 5));
    [ reflexivity | ].
  apply same_draws_skip. exact H.
Qed.

Lemma runs_years (s : sim) (g : rng) (out : list report) (n : Z) :
  runs s g out n -> (years_passed s < n)%Z.
Proof.
  induction 1 as [s g s1 o1 g1 E1 | s g s1 o1 g1 rest n E1 _ IH];
    pose proof (iteration_years s g) as Hy; rewrite E1 in Hy;
    cbn [fst] in Hy; lia.
Qed.

Lemma runs_same (s : sim) (g1 : rng) (out : list report) (n : Z) :
  runs s g1 out n ->
  forall g2 : rng,
    same_draws g1 g2 (6 * Z.to_nat (n - years_passed s)) ->
    runs s g2 out n.
Proof.
  induction 1 as [s g1 s1 o1 g1' E1 | s g1 s1 o1 g1' rest n E1 Hr IH];
    intros g2 H.
  - pose proof (iteration_years s g1) as Hy. rewrite E1 in Hy.
    cbn [fst] in Hy.
    replace (years_passed s1 - years_passed s)%Z with 1%Z in H by lia.
    pose proof (iteration_same s g1 g2 H) as E. rewrite E1 in E.
    cbn [fst] in E.
    apply (runs_break s g2 s1 o1 (snd (iteration s g2))).
    rewrite E. apply surjective_pairing.
  - pose proof (iteration_years s g1) as Hy. rewrite E1 in Hy.
    cbn [fst] in Hy.
    pose proof (runs_years _ _ _ _ Hr) as Hn.
    pose proof (iteration_gen s g1) as Eg1. rewrite E1 in Eg1.
    cbn [snd] in Eg1. subst g1'.
    replace (Z.to_nat (n - years_passed s))
      with (S (Z.to_nat (n - years_passed s1))) in H by lia.
    assert (H6 : same_draws g1 g2 6).
    { apply (same_draws_le g1 g2 (6 * S (Z.to_nat (n - years_passed s1))));
        [ lia | exact H ]. }
    pose proof (iteration_same s g1 g2 H6) as E. rewrite E1 in E.
    cbn [fst] in E.
    apply (runs_again s g2 s1 o1 (skip g2 6) rest n).
    + rewrite E, <- (iteration_gen s g2). apply surjective_pairing.
    + apply IH. apply same_draws_skip.
      replace (6 + 6 * Z.to_nat (n - years_passed s1))%nat
        with (6 * S (Z.to_nat (n - years_passed s1)))%nat by lia.
      exact H.
Qed.

Lemma simulates_start (g : rng) (out : list report) (n : Z) :
  simulates g out n <->
  exists rest, out = Starting :: rest /\ runs (start g) (skip g 5) rest n.
Proof.
  rewrite simulates_runs. unfold start.
  rewrite turtle_init_eq. cbn [fst snd]. rewrite yoke_init_eq.
  cbn [fst snd]. rewrite skip_skip. cbn [Nat.add]. reflexivity.
Qed.

Lemma simulates_same (g1 g2 : rng) (out : list report) (n : Z) :
  simulates g1 out n ->
  same_draws g1 g2 (5 + 6 * Z.to_nat n) ->
  simulates g2 out n.
Proof.
  rewrite !simulates_start. intros [rest [-> Hr]] H.
  exists rest. split; [ reflexivity | ].
  rewrite <- (start_same g1 g2)
    by (apply (same_draws_le g1 g2 (5 + 6 * Z.to_nat n)); [ lia | exact H ]).
  apply (runs_same _ _ _ _ Hr).
  cbn [start years_passed]. rewrite Z.sub_0_r.
  apply same_draws_skip. exact H.
Qed.

Lemma meeting_again_same : same_draws meeting_gen meeting_again 605.
Proof.
  intros j Hj. unfold peek, meeting_gen, meeting_again. cbn [draws cursor].
  destruct (Nat.ltb_spec (j + 10) 10) as [Hlt | _]; [ lia | ].
  destruct (Nat.ltb_spec (j + 10) 615) as [_ | Hge]; [ | lia ].
  rewrite Nat.add_0_r. f_equal. lia.
Qed.

(** C8: the simulation is determined by its random source.  Two complete
    runs from one generator state print the same reports, breath by breath,
    and break with the same total of years.  More: the source counts only
    through the draws the run takes, five for the constructors and six a
    year, in that order; two generator states that agree on those draws
    give the same reports at every cut-off, and a complete run from the one
    is a complete run from the other. *)
Theorem simulation_deterministic :
  (forall (g : rng) (out1 out2 : list report) (n1 n2 : Z),
      simulates g out1 n1 -> simulates g out2 n2 ->
      out1 = out2 /\ n1 = n2) /\
  (forall (fuel : nat) (g1 g2 : rng),
      same_draws g1 g2 (5 + 6 * fuel) ->
      fst (simulate fuel g1) = fst (simulate fuel g2)) /\
  (forall (g1 g2 : rng) (out : list report) (n : Z),
      simulates g1 out n ->
      same_draws g1 g2 (5 + 6 * Z.to_nat n) ->
      simulates g2 out n).
Proof.
  split; [ | split ].
  - intros g out1 out2 n1 n2 H1 H2.
    apply simulates_start in H1, H2.
    destruct H1 as [rest1 [-> R1]]. destruct H2 as [rest2 [-> R2]].
    destruct (runs_deterministic _ _ _ _ _ _ R1 R2) as [-> ->].
    split; reflexivity.
  - exact simulate_same.
  - exact simulates_same.
Qed.

Lemma simulation_deterministic_witness :
  unit_draws meeting_gen /\
  simulates meeting_gen meeting_out 100 /\
  (forall (out : list report) (n : Z),
      simulates meeting_gen out n -> out = meeting_out /\ n = 100%Z) /\
  (same_draws meeting_gen meeting_again 605 /\
   simulates meeting_again meeting_out 100).
Proof.
  destruct simulation_deterministic as [Hsame [_ Hagree]].
  split; [ exact meeting_gen_unit | split; [ exact meeting_run | split ] ].
  - intros out n H.
    exact (Hsame meeting_gen out meeting_out n 100%Z H meeting_run).
  - split; [ exact meeting_again_same | ].
    exact (Hagree meeting_gen meeting_again meeting_out 100%Z meeting_run
             meeting_again_same).
Defined.

(** * [distance_deg] as the code computes it *)

Local Open Scope float_scope.

Lemma SFmul_abs (prec emax : Z) (x : spec_float) :
  SFmul prec emax x x = SFmul prec emax (SFabs x) (SFabs x).
Proof.
  destruct x as [s | s | | s m e]; cbn [SFmul SFabs];
    rewrite ?xorb_nilpotent; reflexivity.
Qed.

Lemma binary_round_abs (prec emax : Z) (s s' : bool) (m : positive) (e : Z) :
  SFabs (binary_round prec emax s m e) = SFabs (binary_round prec emax s' m e).
Proof.
  unfold binary_round, binary_round_aux.
  destruct (shl_align _ _ _) as [mz ez].
  destruct (shr_fexp _ _ _ _ _) as [mrs' e'].
  destruct (shr_fexp _ _ _ _ _) as [mrs'' e''].
  destruct (shr_m mrs''); [ reflexivity | | reflexivity ].
  destruct (Z.leb _ _); reflexivity.
Qed.

Lemma binary_normalize_abs (prec emax : Z) (m e : Z) (sz : bool) :
  SFabs (binary_normalize prec emax m e sz)
  = SFabs (binary_normalize prec emax (- m) e sz).
Proof.
  destruct m; cbn [binary_normalize Z.opp];
    [ reflexivity | apply binary_round_abs | apply binary_round_abs ].
Qed.

Lemma SFsub_abs (prec emax : Z) (x y : spec_float) :
  SFabs (SFsub prec emax x y) = SFabs (SFsub prec emax y x).
Proof.
  destruct x as [sx | sx | | sx mx ex]; destruct y as [sy | sy | | sy my ey];
    cbn [SFsub SFabs]; try reflexivity;
    try (destruct sx, sy; reflexivity).
  rewrite (Z.min_comm ey ex).
  rewrite binary_normalize_abs. f_equal. f_equal. lia.
Qed.

Lemma square_sub_sym (a b : float) : B64.square (a - b) = B64.square (b - a).
Proof.
  unfold B64.square. apply Prim2SF_inj.
  rewrite !mul_spec, !sub_spec. unfold SF64mul, SF64sub.
  rewrite SFmul_abs, (SFmul_abs _ _ (SFsub _ _ (Prim2SF b) _)).
  rewrite SFsub_abs. reflexivity.
Qed.

Lemma distance_deg_sym (lat1 lon1 lat2 lon2 : float) :
  B64.distance_deg lat1 lon1 lat2 lon2 = B64.distance_deg lat2 lon2 lat1 lon1.
Proof.
  unfold B64.distance_deg.
  rewrite (square_sub_sym lat1 lat2), (square_sub_sym lon1 lon2). reflexivity.
Qed.

Lemma finite_shape (x : float) :
  is_finite x = true ->
  (exists s, Prim2SF x = S754_zero s) \/
  (exists s m e, Prim2SF x = S754_finite s m e).
Proof.
  unfold is_finite, is_nan, is_infinity.
  rewrite !FloatAxioms.eqb_spec, abs_spec.
  destruct (Prim2SF x) as [s | s | | s m e] eqn:E.
  - intros _. left. exists s. reflexivity.
  - intros H. exfalso. revert H. destruct s; vm_compute; discriminate.
  - intros H. exfalso. revert H. vm_compute. discriminate.
  - intros _. right. exists s, m, e. reflexivity.
Qed.

Lemma sub_diag (x : float) : is_finite x = true -> x - x = 0.
Proof.
  intros H. apply Prim2SF_inj. rewrite sub_spec. unfold SF64sub.
  change (Prim2SF 0) with (S754_zero false).
  destruct (finite_shape x H) as [[s ->] | [s [m [e ->]]]].
  - destruct s; reflexivity.
  - cbn [SFsub]. rewrite Z.sub_diag. reflexivity.
Qed.

Lemma distance_deg_same (lat lon : float) :
  is_finite lat = true -> is_finite lon = true ->
  B64.distance_deg lat lon lat lon = 0.
Proof.
  intros Hlat Hlon. unfold B64.distance_deg.
  rewrite (sub_diag lat Hlat), (sub_diag lon Hlon). vm_compute. reflexivity.
Qed.

(** C7, as it stands, fails on the code.  The squares of a gap of
    [2 ** -600] underflow, so two distinct positions are at distance [0.0];
    and with Python's [0.2] and [0.9] on the equator the two legs add up to
    [0.8999999999999999], short of the direct distance [0.9]. *)
Lemma distance_deg_metric_counterexample :
  ((0x1p-600 =? 0) = false /\
   B64.distance_deg 0x1p-600 0 0 0 = 0) /\
  (B64.distance_deg 0 0 0x1.999999999999ap-3 0
   + B64.distance_deg 0x1.999999999999ap-3 0 0x1.ccccccccccccdp-1 0
   <? B64.distance_deg 0 0 0x1.ccccccccccccdp-1 0) = true.
Proof.
  split; [ split | ]; vm_compute; reflexivity.
Qed.

Local Close Scope float_scope.

(** C7, amended: as computed in binary64, [distance_deg] is symmetric, and
    it is zero between a position with finite coordinates and itself; in
    exact arithmetic the formula is moreover zero only between identical
    positions and obeys the triangle inequality. *)
Theorem distance_deg_laws :
  (forall lat1 lon1 lat2 lon2 : float,
      B64.distance_deg lat1 lon1 lat2 lon2
      = B64.distance_deg lat2 lon2 lat1 lon1) /\
  (forall lat lon : float,
      is_finite lat = true -> is_finite lon = true ->
      B64.distance_deg lat lon lat lon = 0%float) /\
  (forall lat1 lon1 lat2 lon2 : R,
      distance_deg lat1 lon1 lat2 lon2 = distance_deg lat2 lon2 lat1 lon1) /\
  (forall lat1 lon1 lat2 lon2 : R,
      distance_deg lat1 lon1 lat2 lon2 = 0 <-> lat1 = lat2 /\ lon1 = lon2) /\
  (forall lat1 lon1 lat2 lon2 lat3 lon3 : R,
      distance_deg lat1 lon1 lat3 lon3 <=
      distance_deg lat1 lon1 lat2 lon2 + distance_deg lat2 lon2 lat3 lon3).
Proof.
  split; [ exact distance_deg_sym | ].
  split; [ exact distance_deg_same | ].
  exact distance_deg_metric.
Qed.

Lemma distance_deg_laws_witness :
  is_finite 90%float = true /\ is_finite (-180)%float = true /\
  B64.distance_deg 90 (-180) 90 (-180) = 0%float.
Proof.
  split; [ reflexivity | split; [ reflexivity | ] ].
  apply (proj1 (proj2 distance_deg_laws)); reflexivity.
Defined.
